(** * GammaExposure: table extraction and gamma-exposure pipeline

    A shallow embedding of [parse_options_data.py] and [calculate_gex.py].

    Modelling conventions.
    - Python text is a [string] whose characters are code points below 256.
    - A pandas object is modelled by the data the code reads from it: a grid
      is the list of its rows, a row the list of its cells, a table a header
      of column labels together with its rows.
    - A Python call either returns a value or raises; [outcome] records
      which.
    - Python floats are idealised as real numbers ([R]); [np.log], [np.sqrt]
      and [norm.pdf] are the real logarithm, square root and standard normal
      density. *)

From Stdlib Require Import Reals Lra Lia String Ascii NArith.
From stdpp Require Import base list sorting strings.
Import ListNotations.
Open Scope string_scope.

(** ** Cells, exceptions and call outcomes *)

(** An untyped cell of a sheet or of a CSV column. *)
Inductive cell : Type :=
  | NaN                        (* an empty cell: [pd.notna] is False *)
  | Text (s : string)          (* a text cell *)
  | Numeric (repr : string).   (* a number, carried by what [str] prints *)

#[global] Instance cell_eq_dec : EqDecision cell.
Proof. solve_decision. Defined.

Inductive exn : Type :=
  | ValueError (msg : string) (payload : list cell)
  | IndexError
  | AttributeError.

Inductive outcome (A : Type) : Type :=
  | Returned (a : A)
  | Raised (e : exn).
Arguments Returned {A} a.
Arguments Raised {A} e.

#[global] Instance outcome_ret : MRet outcome := fun A a => Returned a.

#[global] Instance outcome_bind : MBind outcome := fun A B k m =>
  match m with
  | Returned a => k a
  | Raised e => Raised e
  end.

#[global] Instance outcome_fmap : FMap outcome := fun A B f m =>
  match m with
  | Returned a => Returned (f a)
  | Raised e => Raised e
  end.

(** ** Python string operations *)

Module PyStr.

Definition code (c : ascii) : N := N_of_ascii c.

(** [str.isspace] on one character. *)
Definition is_space (c : ascii) : bool :=
  existsb (N.eqb (code c)) [9; 10; 11; 12; 13; 28; 29; 30; 31; 32; 133; 160]%N.

Fixpoint lstrip (s : string) : string :=
  match s with
  | EmptyString => EmptyString
  | String c rest => if is_space c then lstrip rest else s
  end.

Fixpoint rstrip (s : string) : string :=
  match s with
  | EmptyString => EmptyString
  | String c rest =>
      match rstrip rest with
      | EmptyString => if is_space c then EmptyString else String c EmptyString
      | kept => String c kept
      end
  end.

(** [s.strip()] *)
Definition strip (s : string) : string := rstrip (lstrip s).

Definition in_range (lo hi n : N) : bool := (N.leb lo n && N.leb n hi)%bool.

Definition lower_char (c : ascii) : ascii :=
  let n := code c in
  if (in_range 65 90 n || in_range 192 214 n || in_range 216 222 n)%bool
  then ascii_of_N (n + 32) else c.

(** [s.lower()] *)
Fixpoint lower (s : string) : string :=
  match s with
  | EmptyString => EmptyString
  | String c rest => String (lower_char c) (lower rest)
  end.

(** [s.upper()].  The sharp s becomes two letters; the two characters whose
    capital lies above code point 255 (micro sign, y with diaeresis) are
    kept, and neither they nor their capitals are ASCII letters. *)
Fixpoint upper (s : string) : string :=
  match s with
  | EmptyString => EmptyString
  | String c rest =>
      let n := code c in
      if N.eqb n 223 then String "S" (String "S" (upper rest))
      else if (in_range 97 122 n || in_range 224 246 n || in_range 248 254 n)%bool
      then String (ascii_of_N (n - 32)) (upper rest)
      else String c (upper rest)
  end.

Fixpoint starts_with (needle s : string) : bool :=
  match needle, s with
  | EmptyString, _ => true
  | String _ _, EmptyString => false
  | String a needle', String b s' => (Ascii.eqb a b && starts_with needle' s')%bool
  end.

(** [needle in s] *)
Fixpoint contains (needle s : string) : bool :=
  (starts_with needle s ||
   match s with
   | EmptyString => false
   | String _ s' => contains needle s'
   end)%bool.

(** [s.replace(',', '')] *)
Fixpoint remove_commas (s : string) : string :=
  match s with
  | EmptyString => EmptyString
  | String c rest =>
      if Ascii.eqb c "," then remove_commas rest else String c (remove_commas rest)
  end.

End PyStr.

(** ** parse_options_data.py *)

Module Parse.

(** A grid row always has a first column: a sheet that has rows has at
    least one column. *)
Record Row : Type := mkRow { first_cell : cell; other_cells : list cell }.

Definition cells (r : Row) : list cell := first_cell r :: other_cells r.

(** The grid read from the sheet with [header=None]: rows are labelled
    0, 1, 2, ... so the label [idx] of [iterrows] is the row position. *)
Abbreviation Grid := (list Row).

(** A table with named columns. *)
Record Table : Type := mkTable { columns : list cell; rows : list (list cell) }.

(** [pd.DataFrame()] *)
Definition empty_table : Table := mkTable [] [].

(** [pd.notna(v)] *)
Definition notna (v : cell) : bool :=
  match v with NaN => false | _ => true end.

(** [str(v)] *)
Definition py_str (v : cell) : string :=
  match v with
  | NaN => "nan"
  | Text s => s
  | Numeric repr => repr
  end.

(** [str(v).strip() if pd.notna(v) else ""] *)
Definition first_col_text (v : cell) : string :=
  if notna v then PyStr.strip (py_str v) else "".

(** [value == "TOTALS" or "No month data" in value] *)
Definition is_sentinel (value : string) : bool :=
  (String.eqb value "TOTALS" || PyStr.contains "No month data" value)%bool.

(** The loop of [find_table_boundaries]: [rows] are the rows still to
    visit, [idx] the label of the next one. *)
Fixpoint scan_boundaries (rows : list Row) (idx : nat)
    (table_boundaries : list (nat * nat)) (table_start : nat)
    : list (nat * nat) * nat :=
  match rows with
  | [] => (table_boundaries, table_start)
  | row :: rest =>
      let first_col_value := first_col_text (first_cell row) in
      if is_sentinel first_col_value
      then scan_boundaries rest (S idx)
             (table_boundaries ++ [(table_start, idx)]) (idx + 1)
      else scan_boundaries rest (S idx) table_boundaries table_start
  end.

Definition find_table_boundaries (df : Grid) : list (nat * nat) :=
  let '(table_boundaries, table_start) := scan_boundaries df 0 [] 0 in
  if (table_start <? length df)%nat
  then table_boundaries ++ [(table_start, length df - 1)]
  else table_boundaries.

(** [df.iloc[a:b]] for non-negative [a], [b]. *)
Definition iloc_slice {A} (l : list A) (a b : nat) : list A :=
  take (b - a) (drop a l).

(** The inner loop of [find_table_for_month]: [rows] are the rows from
    [end_idx] on; [table_end] is the value kept when no row breaks. *)
Fixpoint scan_table_end (rows : list Row) (end_idx table_end : nat) : nat :=
  match rows with
  | [] => table_end
  | row :: rest =>
      let end_col_value := first_col_text (first_cell row) in
      if is_sentinel end_col_value
      then end_idx - 1
      else scan_table_end rest (S end_idx) table_end
  end.

(** [table.dropna(how='all')] keeps a row unless every cell is NaN. *)
Definition dropna_all (rs : list (list cell)) : list (list cell) :=
  filter (fun r => existsb notna r = true) rs.

(** The outer loop of [find_table_for_month]. *)
Fixpoint scan_title (df : Grid) (search_text : string) (rows : list Row)
    (idx : nat) : outcome (Table * bool) :=
  match rows with
  | [] => Returned (empty_table, false)
  | row :: rest =>
      let first_col_value := first_col_text (first_cell row) in
      if String.eqb first_col_value search_text then
        let header_row_idx := idx + 1 in
        let data_start_idx := idx + 2 in
        let table_end :=
          scan_table_end (drop data_start_idx df) data_start_idx (length df - 1) in
        let table := iloc_slice df data_start_idx (table_end + 1) in
        match df !! header_row_idx with
        | None => Raised IndexError
        | Some header =>
            Returned (mkTable (cells header) (dropna_all (map cells table)), true)
        end
      else scan_title df search_text rest (S idx)
  end.

Definition find_table_for_month (df : Grid) (month table_type : string)
    : outcome (Table * bool) :=
  let search_text := month ++ " " ++ table_type in
  scan_title df search_text df 0.

(** [str(col).lower().strip() == name] *)
Definition is_header (name : string) (col : cell) : bool :=
  String.eqb (PyStr.strip (PyStr.lower (py_str col))) name.

(** [for col in cols: if is_header: ...; break] *)
Definition first_header (name : string) (cols : list cell) : option cell :=
  List.find (is_header name) cols.

(** The cells of [row] under the columns labelled [label]. *)
Definition pick (label : cell) (header row : list cell) : list cell :=
  (filter (fun p => p.1 = label) (zip header row)).*2.

(** [table[labels]]: selection by label keeps every column that carries
    one of the labels, label by label. *)
Definition getitem_columns (labels : list cell) (table : Table) : Table :=
  mkTable (labels ≫= fun l => filter (fun c => c = l) (columns table))
          (map (fun r => labels ≫= fun l => pick l (columns table) r) (rows table)).

Definition filter_table_columns (table : Table) : outcome Table :=
  let columns_to_keep :=
    (option_list (first_header "strike" (columns table)) ++
     option_list (first_header "at close" (columns table)))%list in
  match columns_to_keep with
  | [] => Returned table
  | _ :: _ => Returned (getitem_columns columns_to_keep table)
  end.

(** [Series.unique()]: distinct values in order of first appearance.
    Cells are told apart as [cell]s are: two numbers that print
    differently (1 and 1.0) count as two values here, as one in pandas. *)
Fixpoint unique_from (seen l : list cell) : list cell :=
  match l with
  | [] => []
  | x :: rest =>
      if decide (x ∈ seen) then unique_from seen rest
      else x :: unique_from (x :: seen) rest
  end.

Definition unique (l : list cell) : list cell := unique_from [] l.

Definition month_column_error : string :=
  "Could not find 'month' column in first table. Available columns: ".

(** [first_table[month_col]] is a Series only when one column carries the
    label; with several it is a DataFrame, which has no [unique]. *)
Definition get_months_from_first_table (first_table : Table)
    : outcome (list string) :=
  match first_header "month" (columns first_table) with
  | None => Raised (ValueError month_column_error (columns first_table))
  | Some month_col =>
      match filter (fun c => c = month_col) (columns first_table) with
      | [_] =>
          let series := rows first_table ≫= pick month_col (columns first_table) in
          let months := unique (filter (fun v => notna v = true) series) in
          Returned
            (map (fun m => PyStr.strip (py_str m))
               (filter (fun m => PyStr.upper (PyStr.strip (py_str m)) <> "TOTALS")
                  months))
      | _ => Raised AttributeError
      end
  end.

(** The loop of [find_header_row] over [range(start_row, end_row + 1)];
    [count] rows remain, the next is [idx]. *)
Fixpoint scan_header (df : Grid) (count idx : nat) (start_row : nat)
    : outcome nat :=
  match count with
  | O => Returned start_row
  | S count' =>
      match df !! idx with
      | None => Raised IndexError
      | Some row =>
          let row_values :=
            map (fun val => if notna val
                            then PyStr.lower (PyStr.strip (py_str val)) else "")
                (cells row) in
          if existsb (String.eqb "month") row_values then Returned idx
          else scan_header df count' (S idx) start_row
      end
  end.

Definition find_header_row (df : Grid) (start_row end_row : nat) : outcome nat :=
  scan_header df (end_row + 1 - start_row) start_row start_row.

(** [parse_options_file] from the loaded grid on.  A label found by the
    month test is a non-empty string, so [if month_col:] holds exactly when
    a label was found. *)
Definition parse_options_file (df : Grid) : outcome (list string * Grid) :=
  match find_table_boundaries df with
  | [] => Raised (ValueError "No tables found in the file" [])
  | (first_table_start, first_table_end) :: _ =>
      header_row_idx ← find_header_row df first_table_start first_table_end;
      match df !! header_row_idx with
      | None => Raised IndexError
      | Some header =>
          let body :=
            map cells (iloc_slice df (header_row_idx + 1) (first_table_end + 1)) in
          let first_table :=
            match first_header "month" (cells header) with
            | Some month_col =>
                mkTable (cells header)
                  (filter (fun r => forallb notna (pick month_col (cells header) r) = true)
                     body)
            | None => mkTable (cells header) body
            end in
          months ← get_months_from_first_table first_table;
          Returned (months, df)
      end
  end.

(** [df.iloc[start_row:end_row + 1].reset_index(drop=True)] *)
Definition extract_table (df : Grid) (start_row end_row : nat) : list Row :=
  iloc_slice df start_row (end_row + 1).

(** One entry of [csv_data] in [main]. *)
Record CsvRow : Type :=
  mkCsvRow { csv_OptionType : string; csv_Strike : cell; csv_OI : cell }.

(** [row.iloc[i]] *)
Definition iloc (row : list cell) (i : nat) : outcome cell :=
  match row !! i with
  | Some v => Returned v
  | None => Raised IndexError
  end.

(** [for idx, row in table.iterrows(): csv_data.append({...})] *)
Fixpoint append_rows (option_type : string) (rows : list (list cell))
    (csv_data : list CsvRow) : outcome (list CsvRow) :=
  match rows with
  | [] => Returned csv_data
  | row :: rest =>
      strike ← iloc row 0;
      oi ← iloc row 1;
      append_rows option_type rest
        (csv_data ++ [mkCsvRow option_type strike oi])
  end.


End Parse.

(** ** calculate_gex.py *)

Module Gex.

Local Open Scope R_scope.

Definition SPOT : R := 25600.
Definition IV : R := 0.1767.
Definition MULT : R := 20.
Definition T : R := 0.202739726.

(** [norm.pdf]: the standard normal density. *)
Definition norm_pdf (x : R) : R := exp (- (x ^ 2) / 2) / sqrt (2 * PI).

(** The real expression is the program's where the program computes a
    finite value: for S > 0, K > 0, sigma > 0 and T > 0.  At K = 0 the
    program's [S / K] raises [ZeroDivisionError], and for S / K < 0 its
    [np.log] yields [nan]; neither has a counterpart in [R], so statements
    about values of [d1] carry the hypothesis 0 < K. *)
Definition d1 (S K r T sigma : R) : R :=
  (ln (S / K) + (r + 0.5 * sigma ^ 2) * T) / (sigma * sqrt T).

Definition d2 (d1_val sigma T : R) : R := d1_val - sigma * sqrt T.

Definition calculate_gamma (S K r T sigma : R) : R :=
  if Rle_dec T 0 then 0
  else
    let d1_val := d1 S K r T sigma in
    let gamma := norm_pdf d1_val / (S * sigma * sqrt T) in
    gamma.

(** A row of [data.csv]. *)
Record Row : Type := mkRow { OptionType : cell; Strike : cell; OI : cell }.

Section Pipeline.

(** Python's [float] on text: the number read, or [None] where it raises
    [ValueError].  Texts that Python reads as [nan] or [inf] have no real
    value and lie outside this idealisation. *)
Variable float : string -> option R.

(** [float(str(v).replace(',', ''))] *)
Definition to_float (v : cell) : outcome R :=
  match float (PyStr.remove_commas (Parse.py_str v)) with
  | Some x => Returned x
  | None => Raised (ValueError "could not convert string to float" [])
  end.

Definition calculate_signed_gex (row : Row) (spot iv mult t : R) : outcome R :=
  let option_type := OptionType row in
  strike ← to_float (Strike row);
  oi ← to_float (OI row);
  if Req_dec_T oi 0 then Returned 0
  else
    let gamma := calculate_gamma spot strike 0 t iv in
    let gex := gamma * oi * spot * (1 / 100) * mult in
    if decide (option_type = Text "Put") then Returned (- gex) else Returned gex.

(** [df.apply(lambda row: calculate_signed_gex(row, ...), axis=1)] *)
Fixpoint apply_gex (df : list Row) (spot iv mult t : R) : outcome (list R) :=
  match df with
  | [] => Returned []
  | row :: rest =>
      gex ← calculate_signed_gex row spot iv mult t;
      others ← apply_gex rest spot iv mult t;
      Returned (gex :: others)
  end.

(** The order pandas sorts the Strike column by.  Grouping and summing do
    not depend on it; [strike_column_le] below is the order of a column
    read from [data.csv]. *)
Context (strike_le : relation cell) `{!RelDecision strike_le}.

Definition key_le : relation (cell * R) := fun a b => strike_le a.1 b.1.

#[local] Instance key_le_dec : RelDecision key_le.
Proof. intros a b. unfold key_le. apply _. Defined.

(** Adding one row to the groups met so far. *)
Fixpoint add_to_group (k : cell) (v : R) (groups : list (cell * R))
    : list (cell * R) :=
  match groups with
  | [] => [(k, v)]
  | (k', subtotal) :: rest =>
      if decide (k = k') then (k', subtotal + v) :: rest
      else (k', subtotal) :: add_to_group k v rest
  end.

(** [.groupby('Strike')['GEX'].sum()] on the Strike and GEX columns: rows
    whose key is missing are left out, every other row is added to the
    group of its key, and the groups come out sorted by key. *)
Definition groupby_sum (strike_gex : list (cell * R)) : list (cell * R) :=
  merge_sort key_le
    (foldl (fun groups row => add_to_group row.1 row.2 groups) []
       (filter (fun row => Parse.notna row.1 = true) strike_gex)).

(** [.sort_index()] *)
Definition sort_index (series : list (cell * R)) : list (cell * R) :=
  merge_sort key_le series.

Definition gex_by_strike (strike_gex : list (cell * R)) : list (cell * R) :=
  sort_index (groupby_sum strike_gex).

Fixpoint cumsum_from (acc : R) (values : list R) : list R :=
  match values with
  | [] => []
  | x :: rest => (acc + x) :: cumsum_from (acc + x) rest
  end.

(** [.cumsum()] *)
Definition cumsum (values : list R) : list R :=
  match values with
  | [] => []
  | x :: rest => x :: cumsum_from x rest
  end.

(** [df['GEX'].sum()] *)
Definition series_sum (values : list R) : R := foldr Rplus 0 values.

(** The numeric part of [main]: the GEX column, the per-strike series and
    the cumulative series. *)
Definition main (df : list Row)
    : outcome (list R * list (cell * R) * list (cell * R)) :=
  gex ← apply_gex df SPOT IV MULT T;
  let by_strike := gex_by_strike (zip (map Strike df) gex) in
  let cumulative_gex := zip by_strike.*1 (cumsum by_strike.*2) in
  Returned (gex, by_strike, cumulative_gex).

End Pipeline.

(** [df[df['OptionType'] == side]['GEX'].sum()] *)
Definition side_gex (side : string) (df : list Row) (gex : list R) : R :=
  series_sum (filter (fun row => OptionType row.1 = Text side) (zip df gex)).*2.

(** The order of the raw Strike column, which [groupby('Strike')] and
    [sort_index()] sort by: numbers by value, texts character by character
    in code point order.  The value of a number is what [float] reads from
    its printed form.  A column read from [data.csv] holds numbers or
    texts, not both; across kinds the relation puts numbers before texts,
    and statements about the order are made for columns of one kind. *)
Definition strike_column_le (float : string -> option R) : relation cell :=
  fun a b =>
    match a, b with
    | NaN, _ => True
    | Numeric _, NaN => False
    | Numeric x, Numeric y => default 0 (float x) <= default 0 (float y)
    | Numeric _, Text _ => True
    | Text s, Text t => String.leb s t = true
    | Text _, _ => False
    end.

#[global] Instance strike_column_le_dec float : RelDecision (strike_column_le float).
Proof.
  intros a b. destruct a, b; simpl; try apply _. apply Rle_dec.
Defined.

End Gex.

(** ** Specification vocabulary *)

Module Spec.

Import Parse.

(** The row indices a segment [(start, end)] stands for, both ends
    included. *)
Definition segment_rows (seg : nat * nat) : list nat :=
  seq seg.1 (seg.2 + 1 - seg.1).

Definition covered_rows (segs : list (nat * nat)) : list nat :=
  segs ≫= segment_rows.

(** [segs] is a chain of non-empty segments that starts at row [start],
    each one beginning right after the previous one ends, and stops just
    before row [stop]. *)
Fixpoint contiguous_from (start : nat) (segs : list (nat * nat)) (stop : nat)
    : Prop :=
  match segs with
  | [] => start = stop
  | seg :: rest =>
      seg.1 = start /\ seg.1 <= seg.2 /\ contiguous_from (seg.2 + 1) rest stop
  end.

(** The segments the loop of [find_table_boundaries] has closed when the
    scan ends, before the trailing segment is considered. *)
Definition closed_segments (df : Grid) : list (nat * nat) :=
  (scan_boundaries df 0 [] 0).1.

(** The first-column text of a row as the scans read it. *)
Definition row_text (row : Row) : string := first_col_text (first_cell row).

(** The sentinel rule in the words of the specification. *)
Definition closes_segment (text : string) : Prop :=
  text = "TOTALS" \/ exists pre post, text = pre ++ "No month data" ++ post.

(** [r] is the first row whose first-column text is [title]. *)
Definition first_title_row (df : Grid) (title : string) (r : nat) : Prop :=
  (exists row, df !! r = Some row /\ row_text row = title) /\
  forall j row, j < r -> df !! j = Some row -> row_text row <> title.

(** [stop] is the first sentinel row at or after row [r + 2], or the row
    count when there is none. *)
Definition table_stop (df : Grid) (r stop : nat) : Prop :=
  r + 2 <= stop /\
  (forall j row, r + 2 <= j < stop -> df !! j = Some row ->
                 ~ closes_segment (row_text row)) /\
  ((exists row, df !! stop = Some row /\ closes_segment (row_text row)) \/
   stop = length df).

(** A row is entirely empty when every cell is missing. *)
Definition entirely_empty (r : list cell) : Prop := Forall (fun c => c = NaN) r.

(** A header equal to [name] up to case and surrounding blanks. *)
Definition header_matches (name : string) (col : cell) : Prop :=
  PyStr.strip (PyStr.lower (py_str col)) = name.

Definition header_present (name : string) (cols : list cell) : Prop :=
  exists col, col ∈ cols /\ header_matches name col.

(** Unsigned decimal numerals, the fragment of Python's [float] and of
    numeric ordering used to run the pipeline on concrete rows. *)
Definition digit_value (c : ascii) : option N :=
  let n := PyStr.code c in
  if PyStr.in_range 48 57 n then Some (n - 48)%N else None.

Fixpoint digits_value_from (acc : N) (s : string) : option N :=
  match s with
  | EmptyString => Some acc
  | String c rest =>
      match digit_value c with
      | Some d => digits_value_from (10 * acc + d)%N rest
      | None => None
      end
  end.

Definition digits_value (s : string) : option N :=
  match s with
  | EmptyString => None
  | _ => digits_value_from 0%N s
  end.

Definition float_digits (s : string) : option R :=
  match digits_value s with
  | Some n => Some (IZR (Z.of_N n))
  | None => None
  end.

Definition numeral_rank (v : cell) : N := default 0%N (digits_value (py_str v)).

Definition numeral_le : relation cell :=
  fun a b => (numeral_rank a <= numeral_rank b)%N.

#[global] Instance numeral_le_dec : RelDecision numeral_le.
Proof. intros a b. unfold numeral_le. apply _. Defined.

(** The standard normal density, [phi] in the specification. *)
Definition standard_normal_density (x : R) : R :=
  (/ sqrt (2 * PI) * exp (- (x * x) / 2))%R.

(** [d1] as the specification writes it, with the rate held at 0. *)
Definition spec_d1 (S K sigma T : R) : R :=
  ((ln (S / K) + (0 + 0.5 * (sigma * sigma)) * T) / (sigma * sqrt T))%R.

(** The exposure of steps 2 to 4 of the specification. *)
Definition spec_gex (S K sigma T oi mult : R) : R :=
  (standard_normal_density (spec_d1 S K sigma T) / (S * sigma * sqrt T)
   * oi * S * 0.01 * mult)%R.

(** A row holds a present cell that reads "month" once trimmed and put in
    lower case. *)
Definition has_month_cell (row : Row) : Prop :=
  exists c, c ∈ cells row /\ c <> NaN /\
            PyStr.lower (PyStr.strip (py_str c)) = "month".

(** The strike a cell stands for when it is a number: what [float] reads
    from its printed form. *)
Definition strike_value (float : string -> option R) (k : cell) : R :=
  default 0%R (float (py_str k)).

(** A cell that is a number with a value. *)
Definition numeric_strike (float : string -> option R) (k : cell) : Prop :=
  exists repr x, k = Numeric repr /\ float repr = Some x.

(** The sum of the values recorded under key [k]. *)
Definition sum_for (k : cell) (strike_gex : list (cell * R)) : R :=
  Gex.series_sum (filter (fun row => row.1 = k) strike_gex).*2.

End Spec.

(** ** Facts about the string operations *)

Module PyStrFacts.

Import PyStr.

Lemma starts_with_spec needle s :
  starts_with needle s = true <-> exists post, s = needle ++ post.
Proof.
  revert s. induction needle as [|a needle IH]; intros s; simpl.
  - split; [intros _; by exists s | done].
  - destruct s as [|b s].
    + split; [done | intros [post Hpost]; discriminate].
    + rewrite andb_true_iff, Ascii.eqb_eq, IH. split.
      * intros [-> [post ->]]. by exists post.
      * intros [post Hpost]. injection Hpost as -> ->. split; [done | by exists post].
Qed.

Lemma contains_spec needle s :
  contains needle s = true <-> exists pre post, s = pre ++ needle ++ post.
Proof.
  induction s as [|c s IH].
  - simpl. rewrite orb_false_r, starts_with_spec. split.
    + intros [post Hpost]. by exists "", post.
    + intros [pre [post Hs]]. destruct pre; [by exists post | discriminate].
  - cbn [contains]. rewrite orb_true_iff, starts_with_spec, IH. split.
    + intros [[post Hpost] | [pre [post Hs]]].
      * by exists "", post.
      * exists (String c pre), post. simpl. by rewrite Hs.
    + intros [pre [post Hs]]. destruct pre as [|c' pre].
      * left. by exists post.
      * right. simpl in Hs. injection Hs as _ Hs. by exists pre, post.
Qed.

Lemma length_lower s : String.length (lower s) = String.length s.
Proof. induction s as [|c s IH]; simpl; [done | by rewrite IH]. Qed.

Lemma length_app s t :
  String.length (s ++ t) = String.length s + String.length t.
Proof. induction s as [|c s IH]; simpl; [done | by rewrite IH]. Qed.

Lemma contains_length needle s :
  contains needle s = true -> String.length needle <= String.length s.
Proof.
  rewrite contains_spec. intros [pre [post ->]].
  rewrite !length_app. lia.
Qed.

End PyStrFacts.

(** ** Facts about parse_options_data.py *)

Module ParseFacts.

Import Parse Spec.

Lemma is_sentinel_spec text :
  is_sentinel text = true <-> closes_segment text.
Proof.
  unfold is_sentinel, closes_segment.
  by rewrite orb_true_iff, String.eqb_eq, PyStrFacts.contains_spec.
Qed.

(** *** Segments *)

Lemma contiguous_from_snoc start segs mid last :
  contiguous_from start segs mid -> mid <= last ->
  contiguous_from start (segs ++ [(mid, last)])%list (last + 1).
Proof.
  revert start. induction segs as [|seg segs IH]; intros start; simpl.
  - intros -> Hle. done.
  - intros (Hs & Hle & Hrest) Hlast. auto.
Qed.

Lemma contiguous_from_le start segs stop :
  contiguous_from start segs stop -> start <= stop.
Proof.
  revert start. induction segs as [|seg segs IH]; intros start; simpl.
  - lia.
  - intros (Hs & Hle & Hrest). apply IH in Hrest. lia.
Qed.

Lemma contiguous_from_covers start segs stop :
  contiguous_from start segs stop ->
  covered_rows segs = seq start (stop - start).
Proof.
  revert start. induction segs as [|[s e] segs IH]; intros start; simpl.
  - intros ->. by rewrite Nat.sub_diag.
  - intros (-> & Hle & Hrest).
    pose proof (contiguous_from_le _ _ _ Hrest) as Hstop.
    unfold covered_rows in *. cbn [mbind list_bind]. simpl in *.
    rewrite (IH _ Hrest). unfold segment_rows. simpl.
    replace (stop - start) with ((e + 1 - start) + (stop - (e + 1))) by lia.
    rewrite seq_app. do 2 f_equal. lia.
Qed.

(** What the loop of [find_table_boundaries] maintains: the segments closed
    so far chain from row 0 to the running start, which never passes the
    row being visited. *)
Lemma scan_boundaries_chain rows idx table_boundaries table_start :
  contiguous_from 0 table_boundaries table_start -> table_start <= idx ->
  contiguous_from 0 (scan_boundaries rows idx table_boundaries table_start).1
                    (scan_boundaries rows idx table_boundaries table_start).2 /\
  (scan_boundaries rows idx table_boundaries table_start).2 <= idx + length rows.
Proof.
  revert idx table_boundaries table_start.
  induction rows as [|row rows IH]; intros idx tb ts Hchain Hle; simpl.
  - split; [done | lia].
  - destruct (is_sentinel _).
    + destruct (IH (S idx) (tb ++ [(ts, idx)])%list (idx + 1)) as [H1 H2];
        [by apply contiguous_from_snoc | lia | ].
      split; [done | lia].
    + destruct (IH (S idx) tb ts) as [H1 H2]; [done | lia | ].
      split; [done | lia].
Qed.

Lemma find_table_boundaries_chain df :
  contiguous_from 0 (find_table_boundaries df) (length df).
Proof.
  unfold find_table_boundaries.
  destruct (scan_boundaries_chain df 0 [] 0) as [Hchain Hle]; [done | lia | ].
  destruct (scan_boundaries df 0 [] 0) as [tb ts]. simpl in *.
  destruct (Nat.ltb_spec ts (length df)) as [Hlt | Hge].
  - replace (length df) with (length df - 1 + 1) at 2 by lia.
    apply contiguous_from_snoc; [done | lia].
  - by replace (length df) with ts by lia.
Qed.

(** C2.  For every grid, the empty one included, the segments returned by
    [find_table_boundaries] come in row order, each is non-empty and begins
    right after the previous one ends, the first begins at row 0 and the
    last ends at the last row; listing the rows of the segments one after
    the other gives every row index of the grid exactly once. *)
Theorem find_table_boundaries_partitions_rows (df : Grid) :
  contiguous_from 0 (find_table_boundaries df) (length df) /\
  covered_rows (find_table_boundaries df) = seq 0 (length df) /\
  find_table_boundaries [] = [].
Proof.
  split; [apply find_table_boundaries_chain | split; [ | done]].
  rewrite (contiguous_from_covers 0 _ (length df)).
  - by rewrite Nat.sub_0_r.
  - apply find_table_boundaries_chain.
Qed.

(** *** Sentinel rows *)

(** A segment ending at row [i] is among those the loop has closed exactly
    when it was closed before, or row [i] is still to be visited and is a
    sentinel. *)
Lemma scan_boundaries_closed rows idx table_boundaries table_start i :
  (exists start,
     (start, i) ∈ (scan_boundaries rows idx table_boundaries table_start).1) <->
  (exists start, (start, i) ∈ table_boundaries) \/
  (idx <= i /\ exists row, rows !! (i - idx) = Some row /\
                          is_sentinel (row_text row) = true).
Proof.
  revert idx table_boundaries table_start.
  induction rows as [|row rows IH]; intros idx tb ts; simpl.
  - split; [by left | intros [H | (_ & row & Hrow & _)]; [done | ]].
    by rewrite lookup_nil in Hrow.
  - fold (row_text row). destruct (is_sentinel (row_text row)) eqn:Hsent; rewrite IH.
    + split.
      * intros [[start Hin] | (Hle & r & Hr & Hs)].
        -- apply elem_of_app in Hin as [Hin | Hin]; [left; by exists start | ].
           apply list_elem_of_singleton in Hin. injection Hin as -> ->.
           right. split; [lia | ]. exists row. by rewrite Nat.sub_diag.
        -- right. split; [lia | ]. exists r. split; [ | done].
           replace (i - idx) with (S (i - S idx)) by lia. done.
      * intros [[start Hin] | (Hle & r & Hr & Hs)].
        -- left. exists start. apply elem_of_app. by left.
        -- destruct (decide (i = idx)) as [-> | Hne].
           ++ left. exists ts. apply elem_of_app. right. by apply list_elem_of_singleton.
           ++ right. split; [lia | ]. exists r. split; [ | done].
              replace (i - idx) with (S (i - S idx)) in Hr by lia. done.
    + split.
      * intros [H | (Hle & r & Hr & Hs)]; [by left | ].
        right. split; [lia | ]. exists r. split; [ | done].
        replace (i - idx) with (S (i - S idx)) by lia. done.
      * intros [H | (Hle & r & Hr & Hs)]; [by left | ].
        destruct (decide (i = idx)) as [-> | Hne].
        -- rewrite Nat.sub_diag in Hr. injection Hr as <-. congruence.
        -- right. split; [lia | ]. exists r. split; [ | done].
           replace (i - idx) with (S (i - S idx)) in Hr by lia. done.
Qed.

Lemma differently_cased_totals_not_sentinel text :
  PyStr.lower text = "totals" -> text <> "TOTALS" -> is_sentinel text = false.
Proof.
  intros Hlow Hne. unfold is_sentinel.
  apply orb_false_iff. split.
  - by apply String.eqb_neq.
  - destruct (PyStr.contains _ text) eqn:Hc; [ | done].
    apply PyStrFacts.contains_length in Hc.
    rewrite <- (PyStrFacts.length_lower text), Hlow in Hc. simpl in Hc. lia.
Qed.

(** The returned list is the closed segments, followed by the trailing
    segment when the last row is not a sentinel. *)
Lemma find_table_boundaries_closed df :
  find_table_boundaries df = closed_segments df \/
  exists start,
    find_table_boundaries df =
      (closed_segments df ++ [(start, length df - 1)])%list.
Proof.
  unfold find_table_boundaries, closed_segments.
  destruct (scan_boundaries df 0 [] 0) as [tb ts]. simpl.
  destruct (ts <? length df)%nat; [right; by exists ts | by left].
Qed.

(** C5.  The loop of [find_table_boundaries] closes a segment at row [i]
    exactly when the trimmed first-column text of that row is "TOTALS" or
    contains "No month data", both compared case-sensitively; a text that
    spells "TOTALS" in any other case, such as "totals", closes none.
    Before the last row, the segments of the returned list that end at row
    [i] are exactly those the loop closed there. *)
Theorem segment_closed_iff_sentinel (df : Grid) (i : nat) :
  ((exists start, (start, i) ∈ closed_segments df) <->
   (exists row, df !! i = Some row /\ closes_segment (row_text row))) /\
  (forall row, df !! i = Some row ->
     PyStr.lower (row_text row) = "totals" -> row_text row <> "TOTALS" ->
     ~ exists start, (start, i) ∈ closed_segments df) /\
  (i + 1 < length df ->
     ((exists start, (start, i) ∈ find_table_boundaries df) <->
      (exists row, df !! i = Some row /\ closes_segment (row_text row)))).
Proof.
  assert (Hiff : (exists start, (start, i) ∈ closed_segments df) <->
                 (exists row, df !! i = Some row /\ closes_segment (row_text row))).
  { unfold closed_segments. rewrite scan_boundaries_closed, Nat.sub_0_r. split.
    - intros [[start Hin] | (_ & row & Hrow & Hs)].
      + by apply elem_of_nil in Hin.
      + exists row. by rewrite <- is_sentinel_spec.
    - intros (row & Hrow & Hs). right. split; [lia | ].
      exists row. by rewrite is_sentinel_spec. }
  split; [done | split].
  - intros row Hrow Hlow Hne. rewrite Hiff. intros (row' & Hrow' & Hs).
    assert (row' = row) as -> by congruence.
    apply is_sentinel_spec in Hs.
    by rewrite differently_cased_totals_not_sentinel in Hs.
  - intros Hi. rewrite <- Hiff.
    destruct (find_table_boundaries_closed df) as [-> | [last ->]]; [done | ].
    split.
    + intros [start Hin]. apply elem_of_app in Hin as [Hin | Hin]; [by exists start | ].
      apply list_elem_of_singleton in Hin. injection Hin as _ ->. lia.
    + intros [start Hin]. exists start. apply elem_of_app. by left.
Qed.

(** The rule at work: with "totals" in row 0 and "TOTALS" in row 2, no
    segment is closed at row 0. *)
Lemma segment_closed_iff_sentinel_witness :
  ~ exists start,
      (start, 0) ∈ closed_segments
        [mkRow (Text "totals") []; mkRow (Numeric "1") []; mkRow (Text "TOTALS") []].
Proof.
  apply (proj1 (proj2 (segment_closed_iff_sentinel
           [mkRow (Text "totals") []; mkRow (Numeric "1") []; mkRow (Text "TOTALS") []]
           0)) (mkRow (Text "totals") [])); [reflexivity | reflexivity | discriminate].
Defined.

(** *** Locating the table of a month *)

Lemma scan_table_end_spec rows end_idx table_end :
  (exists k row,
     rows !! k = Some row /\ is_sentinel (row_text row) = true /\
     (forall j r, j < k -> rows !! j = Some r -> is_sentinel (row_text r) = false) /\
     scan_table_end rows end_idx table_end = end_idx + k - 1) \/
  ((forall j r, rows !! j = Some r -> is_sentinel (row_text r) = false) /\
   scan_table_end rows end_idx table_end = table_end).
Proof.
  revert end_idx. induction rows as [|row rows IH]; intros end_idx; simpl.
  - right. split; [ | done]. intros j r Hj. by rewrite lookup_nil in Hj.
  - fold (row_text row). destruct (is_sentinel (row_text row)) eqn:Hs.
    + left. exists 0, row. repeat split; [done | lia | lia].
    + destruct (IH (S end_idx)) as [(k & r & Hk & Hr & Hbefore & Heq) | [Hnone Heq]].
      * left. exists (S k), r. repeat split; [done | done | | lia].
        intros [|j] r' Hj Hr'; [by injection Hr' as <- | ].
        apply (Hbefore j); [lia | done].
      * right. split; [ | done].
        intros [|j] r' Hr'; [by injection Hr' as <- | by apply (Hnone j)].
Qed.

Lemma scan_title_not_found df title rows idx :
  (forall row, row ∈ rows -> row_text row <> title) ->
  scan_title df title rows idx = Returned (empty_table, false).
Proof.
  revert idx. induction rows as [|row rows IH]; intros idx Hnone; simpl; [done | ].
  fold (row_text row). destruct (String.eqb_spec (row_text row) title) as [Heq | Hne].
  - exfalso. apply (Hnone row); [left | done].
  - apply IH. intros r Hr. apply Hnone. by right.
Qed.

Lemma scan_title_found df title rows idx k row :
  rows !! k = Some row -> row_text row = title ->
  (forall j r, j < k -> rows !! j = Some r -> row_text r <> title) ->
  scan_title df title rows idx =
    match df !! (idx + k + 1) with
    | None => Raised IndexError
    | Some header =>
        Returned
          (mkTable (cells header)
             (dropna_all
                (map cells
                   (iloc_slice df (idx + k + 2)
                      (scan_table_end (drop (idx + k + 2) df) (idx + k + 2)
                         (length df - 1) + 1)))),
           true)
    end.
Proof.
  revert idx k. induction rows as [|r0 rows IH]; intros idx k Hk Htitle Hfirst.
  - by rewrite lookup_nil in Hk.
  - simpl. fold (row_text r0).
    destruct k as [|k].
    + injection Hk as ->. rewrite <- Htitle, String.eqb_refl.
      by replace (idx + 0 + 1) with (idx + 1) by lia;
         replace (idx + 0 + 2) with (idx + 2) by lia.
    + destruct (String.eqb_spec (row_text r0) title) as [Heq | Hne].
      * exfalso. apply (Hfirst 0 r0); [lia | done | done].
      * rewrite (IH (S idx) k Hk Htitle).
        -- by replace (S idx + k + 1) with (idx + S k + 1) by lia;
              replace (S idx + k + 2) with (idx + S k + 2) by lia.
        -- intros j r Hj Hr. apply (Hfirst (S j)); [lia | done].
Qed.

Lemma dropna_all_spec rs :
  dropna_all rs = filter (fun r => ~ entirely_empty r) rs.
Proof.
  unfold dropna_all. apply list_filter_iff. intros r.
  unfold entirely_empty. rewrite existsb_exists, Forall_forall. split.
  - intros (c & Hin & Hc) Hall. apply list_elem_of_In in Hin.
    specialize (Hall c Hin). by subst c.
  - intros Hnot. induction r as [|c r IH].
    + exfalso. apply Hnot. intros c Hc. by apply elem_of_nil in Hc.
    + destruct c; [ | exists (Text s); split; [by left | done]
                    | exists (Numeric repr); split; [by left | done]].
      destruct IH as (c & Hin & Hc).
      * intros Hall. apply Hnot. intros c Hc.
        apply elem_of_cons in Hc as [-> | Hc]; [done | by apply Hall].
      * exists c. split; [by right | done].
Qed.

(** C6 as stated fails when the title sits in the last row of the grid:
    there is no row [r + 1] to take the header from, and the call raises
    instead of returning a table. *)
Lemma find_table_for_month_title_in_last_row :
  first_title_row [mkRow (Text "MAR 26 Calls") []] ("MAR 26" ++ " " ++ "Calls") 0 /\
  find_table_for_month [mkRow (Text "MAR 26 Calls") []] "MAR 26" "Calls"
    = Raised IndexError.
Proof.
  split; [ | reflexivity].
  split; [by exists (mkRow (Text "MAR 26 Calls") []) | intros j row Hj; lia].
Qed.

(** C6, amended.  Let [r] be the first row whose trimmed first-column text
    is the title "{month} {side}".  If [r] is not the last row of the grid,
    the call returns found, with the cells of row [r + 1] as column names
    and, as data, the rows from [r + 2] up to the row before [stop] that
    are not entirely empty, where [stop] is the first row at or after
    [r + 2] whose first-column text is "TOTALS" or contains
    "No month data", or the row count when there is none.  If no row
    carries the title, the call returns the empty table and not-found. *)
Theorem find_table_for_month_extracts (df : Grid) (month side : string) :
  (forall r,
     first_title_row df (month ++ " " ++ side) r -> r + 1 < length df ->
     exists header stop,
       df !! (r + 1) = Some header /\ table_stop df r stop /\
       find_table_for_month df month side =
         Returned
           (mkTable (cells header)
              (filter (fun r => ~ entirely_empty r)
                 (map cells (take (stop - (r + 2)) (drop (r + 2) df)))),
            true)) /\
  ((forall row, row ∈ df -> row_text row <> month ++ " " ++ side) ->
   find_table_for_month df month side = Returned (empty_table, false)).
Proof.
  split; [ | apply scan_title_not_found].
  intros r [(row & Hrow & Htitle) Hfirst] Hlen.
  destruct (lookup_lt_is_Some_2 df (r + 1) Hlen) as [header Hheader].
  exists header,
    (scan_table_end (drop (r + 2) df) (r + 2) (length df - 1) + 1).
  split; [done | ]. split.
  - destruct (scan_table_end_spec (drop (r + 2) df) (r + 2) (length df - 1))
      as [(k & srow & Hk & Hs & Hbefore & ->) | [Hnone ->]].
    + rewrite lookup_drop in Hk.
      replace (r + 2 + k - 1 + 1) with (r + 2 + k) by lia.
      split; [lia | split].
      * intros j jrow Hj Hjrow. rewrite <- is_sentinel_spec.
        rewrite (Hbefore (j - (r + 2)) jrow); [done | lia | ].
        rewrite lookup_drop. by replace (r + 2 + (j - (r + 2))) with j by lia.
      * left. exists srow. by rewrite <- is_sentinel_spec.
    + replace (length df - 1 + 1) with (length df) by lia.
      split; [lia | split].
      * intros j jrow Hj Hjrow. rewrite <- is_sentinel_spec.
        rewrite (Hnone (j - (r + 2)) jrow); [done | ].
        rewrite lookup_drop. by replace (r + 2 + (j - (r + 2))) with j by lia.
      * by right.
  - unfold find_table_for_month.
    rewrite (scan_title_found df _ df 0 r row Hrow Htitle Hfirst).
    rewrite !Nat.add_0_l.
    rewrite Hheader, dropna_all_spec. unfold iloc_slice.
    done.
Qed.

(** The amended statement at work on a grid with a title, a header, two
    data rows around an empty one, and a closing sentinel. *)
Lemma find_table_for_month_extracts_witness :
  exists header stop,
    [mkRow (Text "JUN 26 Calls") [NaN];
     mkRow (Text "Strike") [Text "At Close"];
     mkRow (Numeric "100") [Numeric "10"];
     mkRow NaN [NaN];
     mkRow (Numeric "105") [Numeric "7"];
     mkRow (Text "TOTALS") [Numeric "17"]] !! (0 + 1) = Some header /\
    table_stop
      [mkRow (Text "JUN 26 Calls") [NaN];
       mkRow (Text "Strike") [Text "At Close"];
       mkRow (Numeric "100") [Numeric "10"];
       mkRow NaN [NaN];
       mkRow (Numeric "105") [Numeric "7"];
       mkRow (Text "TOTALS") [Numeric "17"]] 0 stop /\
    find_table_for_month
      [mkRow (Text "JUN 26 Calls") [NaN];
       mkRow (Text "Strike") [Text "At Close"];
       mkRow (Numeric "100") [Numeric "10"];
       mkRow NaN [NaN];
       mkRow (Numeric "105") [Numeric "7"];
       mkRow (Text "TOTALS") [Numeric "17"]] "JUN 26" "Calls" =
      Returned
        (mkTable (cells header)
           (filter (fun r => ~ entirely_empty r)
              (map cells
                 (take (stop - (0 + 2))
                    (drop (0 + 2)
                       [mkRow (Text "JUN 26 Calls") [NaN];
                        mkRow (Text "Strike") [Text "At Close"];
                        mkRow (Numeric "100") [Numeric "10"];
                        mkRow NaN [NaN];
                        mkRow (Numeric "105") [Numeric "7"];
                        mkRow (Text "TOTALS") [Numeric "17"]])))),
         true).
Proof.
  apply (proj1 (find_table_for_month_extracts _ "JUN 26" "Calls") 0).
  - split; [by eexists | intros j row Hj; lia].
  - simpl. lia.
Defined.

(** *** Required columns *)

Lemma is_header_spec name col :
  is_header name col = true <-> header_matches name col.
Proof. unfold is_header, header_matches. apply String.eqb_eq. Qed.

Lemma first_header_None name cols :
  first_header name cols = None <-> ~ header_present name cols.
Proof.
  unfold first_header, header_present. split.
  - intros Hnone (col & Hin & Hcol).
    apply list_elem_of_In in Hin.
    apply (find_none _ _ Hnone) in Hin. apply is_header_spec in Hcol. congruence.
  - intros Hnot. destruct (find _ cols) as [col|] eqn:Hfind; [ | done].
    apply find_some in Hfind as [Hin Hcol]. exfalso. apply Hnot.
    exists col. split; [by apply list_elem_of_In | by apply is_header_spec].
Qed.

Lemma first_header_Some name cols label :
  first_header name cols = Some label ->
  label ∈ cols /\ header_matches name label.
Proof.
  unfold first_header. intros Hfind. apply find_some in Hfind as [Hin Hcol].
  split; [by apply list_elem_of_In | by apply is_header_spec].
Qed.

Lemma first_header_present name cols :
  header_present name cols -> exists label, first_header name cols = Some label.
Proof.
  intros Hp. destruct (first_header name cols) as [label|] eqn:Hfind; [by exists label | ].
  by apply first_header_None in Hfind.
Qed.




(** *** Column projection *)

Lemma filter_eq_NoDup (label : cell) cols :
  NoDup cols -> label ∈ cols -> filter (fun c => c = label) cols = [label].
Proof.
  induction 1 as [|c cols Hnotin Hnodup IH]; intros Hin.
  - by apply elem_of_nil in Hin.
  - destruct (decide (c = label)) as [-> | Hne].
    + rewrite filter_cons_True by done. f_equal.
      clear IH Hin. induction cols as [|c' cols IH]; [done | ].
      rewrite filter_cons_False.
      * apply IH;
          [by apply not_elem_of_cons in Hnotin as [_ ?]
          |by apply NoDup_cons in Hnodup as [_ ?]].
      * intros ->. apply Hnotin. by left.
    + rewrite filter_cons_False by done. apply IH.
      by apply elem_of_cons in Hin as [-> | Hin].
Qed.

Lemma getitem_columns_labels labels table :
  Forall (fun c => c ∈ labels) (columns (getitem_columns labels table)).
Proof.
  unfold getitem_columns. cbn [columns]. apply Forall_forall. intros c Hc.
  apply list_elem_of_bind in Hc as (l & Hc & Hl).
  apply list_elem_of_filter in Hc as [-> _]. done.
Qed.

Lemma filter_eq_absent (label : cell) cols :
  (forall j, cols !! j <> Some label) -> filter (fun c => c = label) cols = [].
Proof.
  induction cols as [|c cols IH]; intros Hnone; [done | ].
  rewrite filter_cons_False.
  - apply IH. intros j. apply (Hnone (S j)).
  - intros ->. by apply (Hnone 0).
Qed.

Lemma filter_eq_single (label : cell) cols i :
  cols !! i = Some label ->
  (forall j, cols !! j = Some label -> j = i) ->
  filter (fun c => c = label) cols = [label].
Proof.
  revert i. induction cols as [|c cols IH]; intros i Hi Honly.
  - by rewrite lookup_nil in Hi.
  - destruct i as [|i]; simpl in Hi.
    + injection Hi as ->. rewrite filter_cons_True by done. f_equal.
      apply filter_eq_absent. intros j Hj. by specialize (Honly (S j) Hj).
    + rewrite filter_cons_False.
      * apply (IH i Hi). intros j Hj. specialize (Honly (S j) Hj). lia.
      * intros ->. by specialize (Honly 0 eq_refl).
Qed.

Lemma first_header_first name cols label :
  first_header name cols = Some label ->
  exists i,
    cols !! i = Some label /\
    forall j c, j < i -> cols !! j = Some c -> ~ header_matches name c.
Proof.
  unfold first_header. induction cols as [|c0 cols IH]; simpl; [done | ].
  destruct (is_header name c0) eqn:Hc0.
  - intros [= ->]. exists 0. split; [done | ]. intros j c Hj. lia.
  - intros Hfind. destruct (IH Hfind) as (i & Hi & Hbefore).
    exists (S i). split; [done | ].
    intros [|j] c Hj Hc; simpl in Hc.
    + injection Hc as <-. rewrite <- is_header_spec. by rewrite Hc0.
    + apply (Hbefore j); [lia | done].
Qed.

(** C10 as stated fails when the matched label is repeated: with the
    labels "Strike", "Strike", "Last" only the "strike" header is present,
    and the result keeps both columns labelled "Strike". *)
Lemma repeated_label_keeps_both_columns :
  header_present "strike" [Text "Strike"; Text "Strike"; Text "Last"] /\
  ~ header_present "at close" [Text "Strike"; Text "Strike"; Text "Last"] /\
  filter_table_columns
    (mkTable [Text "Strike"; Text "Strike"; Text "Last"]
       [[Numeric "100"; Numeric "101"; Numeric "3"]])
  = Returned
      (mkTable [Text "Strike"; Text "Strike"] [[Numeric "100"; Numeric "101"]]).
Proof.
  split; [ | split; [by apply first_header_None | done]].
  exists (Text "Strike"). split; [by left | reflexivity].
Qed.

(** C10, amended.  When one of the two headers "strike" and "at close"
    (compared in lower case after trimming) is present and the other is
    not, [filter_table_columns] returns the table restricted to the
    columns that carry the label of the first matching column: that one
    column alone when its label is not repeated in the table, every column
    with that label otherwise.  The table is returned as it is when
    neither header is present; as soon as one is, every column of the
    result matches one of the two headers. *)
Theorem filter_table_columns_single_match (table : Table) (name other : string) :
  (name = "strike" /\ other = "at close") \/
  (name = "at close" /\ other = "strike") ->
  header_present name (columns table) ->
  ~ header_present other (columns table) ->
  (exists label i,
     columns table !! i = Some label /\ header_matches name label /\
     (forall j c, j < i -> columns table !! j = Some c ->
                  ~ header_matches name c) /\
     filter_table_columns table =
       Returned
         (mkTable (filter (fun c => c = label) (columns table))
            (map (pick label (columns table)) (rows table))) /\
     ((forall j, columns table !! j = Some label -> j = i) ->
      filter (fun c => c = label) (columns table) = [label])) /\
  (forall unmatched,
     ~ header_present "strike" (columns unmatched) ->
     ~ header_present "at close" (columns unmatched) ->
     filter_table_columns unmatched = Returned unmatched) /\
  (forall matched result,
     header_present "strike" (columns matched) \/
     header_present "at close" (columns matched) ->
     filter_table_columns matched = Returned result ->
     Forall (fun c => header_matches "strike" c \/ header_matches "at close" c)
       (columns result)).
Proof.
  intros Hnames Hpresent Hother. split; [ | split].
  - apply first_header_present in Hpresent as [label Hlabel].
    apply first_header_None in Hother.
    destruct (first_header_Some _ _ _ Hlabel) as [Hin Hmatch].
    destruct (first_header_first _ _ _ Hlabel) as (i & Hi & Hbefore).
    exists label, i. split; [done | split; [done | split; [done | split]]].
    + unfold filter_table_columns.
      destruct Hnames as [[-> ->] | [-> ->]]; rewrite Hlabel, Hother;
        unfold getitem_columns;
        [change (option_list (Some label) ++ option_list None)%list with [label]
        |change (option_list None ++ option_list (Some label))%list with [label]];
        rewrite bind_singleton;
        rewrite (map_ext (fun r => [label] ≫= fun l => pick l (columns table) r)
                         (pick label (columns table)));
        [done | intros r; by rewrite bind_singleton | done
        | intros r; by rewrite bind_singleton].
    + intros Honly. by apply (filter_eq_single label _ i).
  - intros unmatched Hs Ha. unfold filter_table_columns.
    apply first_header_None in Hs, Ha. by rewrite Hs, Ha.
  - intros matched result Hsome. unfold filter_table_columns.
    destruct (first_header "strike" (columns matched)) as [ls|] eqn:Hs;
      destruct (first_header "at close" (columns matched)) as [la|] eqn:Ha;
      cbn [option_list app].
    + intros [= <-]. eapply Forall_impl; [apply getitem_columns_labels | ].
      intros c Hc. cbn beta in Hc.
      apply elem_of_cons in Hc as [-> | Hc];
        [left; by apply (first_header_Some _ _ _ Hs) | ].
      apply list_elem_of_singleton in Hc as ->.
      right. by apply (first_header_Some _ _ _ Ha).
    + intros [= <-]. eapply Forall_impl; [apply getitem_columns_labels | ].
      intros c Hc. cbn beta in Hc. apply list_elem_of_singleton in Hc as ->.
      left. by apply (first_header_Some _ _ _ Hs).
    + intros [= <-]. eapply Forall_impl; [apply getitem_columns_labels | ].
      intros c Hc. cbn beta in Hc. apply list_elem_of_singleton in Hc as ->.
      right. by apply (first_header_Some _ _ _ Ha).
    + apply first_header_None in Hs, Ha. destruct Hsome; done.
Qed.

(** The projection at work on a table with a "Strike" column and no
    "At Close" column. *)
Lemma filter_table_columns_single_match_witness :
  exists label i,
    [Text "Last"; Text "Strike"] !! i = Some label /\
    header_matches "strike" label /\
    (forall j c, j < i -> [Text "Last"; Text "Strike"] !! j = Some c ->
                 ~ header_matches "strike" c) /\
    filter_table_columns
      (mkTable [Text "Last"; Text "Strike"] [[Numeric "3"; Numeric "100"]]) =
      Returned
        (mkTable (filter (fun c => c = label) [Text "Last"; Text "Strike"])
           (map (pick label [Text "Last"; Text "Strike"])
              [[Numeric "3"; Numeric "100"]])) /\
    ((forall j, [Text "Last"; Text "Strike"] !! j = Some label -> j = i) ->
     filter (fun c => c = label) [Text "Last"; Text "Strike"] = [label]).
Proof.
  apply (proj1 (filter_table_columns_single_match
                  (mkTable [Text "Last"; Text "Strike"] [[Numeric "3"; Numeric "100"]])
                  "strike" "at close" (or_introl (conj eq_refl eq_refl))
                  (ex_intro _ (Text "Strike")
                     (conj (list_elem_of_further _ _ _ (list_elem_of_here _ _)) eq_refl))
                  (proj1 (first_header_None "at close" [Text "Last"; Text "Strike"])
                         eq_refl))).
Defined.

End ParseFacts.

(** ** Facts about calculate_gex.py *)

Module GexFacts.

Import Gex Spec.

Local Open Scope R_scope.

(** *** The exposure of one row *)

Lemma sqrt_two_pi_pos : 0 < sqrt (2 * PI).
Proof. apply sqrt_lt_R0. pose proof PI_RGT_0. lra. Qed.

Lemma norm_pdf_spec x : norm_pdf x = standard_normal_density x.
Proof.
  unfold norm_pdf, standard_normal_density.
  replace (- x ^ 2 / 2) with (- (x * x) / 2) by (simpl; lra).
  unfold Rdiv. apply Rmult_comm.
Qed.

Lemma norm_pdf_pos x : 0 < norm_pdf x.
Proof.
  unfold norm_pdf. apply Rdiv_lt_0_compat; [apply exp_pos | apply sqrt_two_pi_pos].
Qed.

Lemma d1_spec S K sigma T : d1 S K 0 T sigma = spec_d1 S K sigma T.
Proof. unfold d1, spec_d1. by replace (sigma ^ 2) with (sigma * sigma) by (simpl; lra). Qed.

Lemma calculate_gamma_no_time S K r T sigma :
  T <= 0 -> calculate_gamma S K r T sigma = 0.
Proof. intros HT. unfold calculate_gamma. by destruct (Rle_dec T 0). Qed.

Lemma calculate_gamma_with_time S K r T sigma :
  0 < T ->
  calculate_gamma S K r T sigma = norm_pdf (d1 S K r T sigma) / (S * sigma * sqrt T).
Proof. intros HT. unfold calculate_gamma. destruct (Rle_dec T 0); [lra | done]. Qed.

Lemma calculate_gamma_pos S K r T sigma :
  0 < S -> 0 < sigma -> 0 < T -> 0 < calculate_gamma S K r T sigma.
Proof.
  intros HS Hsigma HT. rewrite calculate_gamma_with_time by done.
  apply Rdiv_lt_0_compat; [apply norm_pdf_pos | ].
  repeat apply Rmult_lt_0_compat; try done. by apply sqrt_lt_R0.
Qed.

Section Rows.

Variable float : string -> option R.

Lemma calculate_signed_gex_zero_oi row spot iv mult t strike :
  to_float float (Strike row) = Returned strike ->
  to_float float (OI row) = Returned 0 ->
  calculate_signed_gex float row spot iv mult t = Returned 0.
Proof.
  intros Hstrike Hoi. unfold calculate_signed_gex. rewrite Hstrike, Hoi.
  cbn [mbind outcome_bind]. by destruct (Req_dec_T 0 0).
Qed.

Lemma calculate_signed_gex_nonzero_oi row spot iv mult t strike oi :
  to_float float (Strike row) = Returned strike ->
  to_float float (OI row) = Returned oi ->
  oi <> 0 ->
  calculate_signed_gex float row spot iv mult t =
    Returned
      (if decide (OptionType row = Text "Put")
       then - (calculate_gamma spot strike 0 t iv * oi * spot * (1 / 100) * mult)
       else calculate_gamma spot strike 0 t iv * oi * spot * (1 / 100) * mult).
Proof.
  intros Hstrike Hoi Hnz. unfold calculate_signed_gex. rewrite Hstrike, Hoi.
  cbn [mbind outcome_bind]. destruct (Req_dec_T oi 0); [done | ].
  by destruct (decide _).
Qed.

End Rows.

(** *** Concrete rows *)

Lemma to_float_100 : to_float float_digits (Text "100") = Returned 100.
Proof. reflexivity. Qed.

Lemma to_float_10 : to_float float_digits (Text "10") = Returned 10.
Proof. reflexivity. Qed.

Lemma to_float_0 : to_float float_digits (Text "0") = Returned 0.
Proof. reflexivity. Qed.

Lemma spec_gex_pos S K sigma T oi mult :
  0 < S -> 0 < sigma -> 0 < T -> 0 < oi -> 0 < mult ->
  0 < spec_gex S K sigma T oi mult.
Proof.
  intros HS Hsigma HT Hoi Hmult. unfold spec_gex.
  assert (0 < standard_normal_density (spec_d1 S K sigma T)
              / (S * sigma * sqrt T)) as Hgamma.
  { apply Rdiv_lt_0_compat.
    - rewrite <- norm_pdf_spec. apply norm_pdf_pos.
    - repeat apply Rmult_lt_0_compat; try done. by apply sqrt_lt_R0. }
  apply Rmult_lt_0_compat; [ | done].
  apply Rmult_lt_0_compat; [ | lra].
  apply Rmult_lt_0_compat; [ | done].
  by apply Rmult_lt_0_compat.
Qed.

Lemma gex_formula S K sigma T oi mult :
  0 < T ->
  calculate_gamma S K 0 T sigma * oi * S * (1 / 100) * mult =
  spec_gex S K sigma T oi mult.
Proof.
  intros HT. rewrite calculate_gamma_with_time by done.
  unfold spec_gex. rewrite norm_pdf_spec, d1_spec. lra.
Qed.

(** C1 as stated fails on a Put row: with spot 100, strike 100, volatility
    0.2, one year to expiry, open interest 10 and multiplier 1 the formula
    is positive, and the call returns its negation. *)
Lemma put_row_gex_differs_from_formula :
  calculate_signed_gex float_digits
    (mkRow (Text "Put") (Text "100") (Text "10")) 100 0.2 1 1
  <> Returned (spec_gex 100 100 0.2 1 10 1).
Proof.
  rewrite (calculate_signed_gex_nonzero_oi float_digits
             (mkRow (Text "Put") (Text "100") (Text "10")) 100 0.2 1 1 100 10
             to_float_100 to_float_10) by lra.
  cbn [OptionType]. rewrite decide_True by done.
  rewrite gex_formula by lra.
  pose proof (spec_gex_pos 100 100 0.2 1 10 1) as Hpos.
  intros Heq. injection Heq as Heq. lra.
Qed.

(** C1, amended.  For spot S > 0, strike K > 0, sigma > 0, T > 0 and a
    non-zero open interest OI, [calculate_signed_gex] returns
    phi(d1) / (S sigma sqrt T) * OI * S * 0.01 * mult on a row that is not
    a Put and the negation of that value on a Put row, where
    d1 = (ln (S / K) + (r + 0.5 sigma^2) T) / (sigma sqrt T) with r = 0 and
    phi the standard normal density.  For T <= 0 the gamma factor is 0. *)
Theorem calculate_signed_gex_formula
    (float : string -> option R) (row : Row) (S K sigma T oi mult : R) :
  0 < S -> 0 < K -> 0 < sigma -> 0 < T -> oi <> 0 ->
  to_float float (Strike row) = Returned K ->
  to_float float (OI row) = Returned oi ->
  calculate_signed_gex float row S sigma mult T =
    Returned (if decide (OptionType row = Text "Put")
              then - spec_gex S K sigma T oi mult
              else spec_gex S K sigma T oi mult) /\
  (forall S' K' r' T' sigma', T' <= 0 -> calculate_gamma S' K' r' T' sigma' = 0).
Proof.
  intros HS HK Hsigma HT Hoi Hstrike Hopen.
  split; [ | intros; by apply calculate_gamma_no_time].
  rewrite (calculate_signed_gex_nonzero_oi float row S sigma mult T K oi) by done.
  by rewrite gex_formula.
Qed.

(** The formula at work on a Call row with spot 100, strike 100,
    volatility 0.2, one year to expiry, open interest 10, multiplier 1. *)
Lemma calculate_signed_gex_formula_witness :
  calculate_signed_gex float_digits
    (mkRow (Text "Call") (Text "100") (Text "10")) 100 0.2 1 1 =
    Returned (if decide (OptionType (mkRow (Text "Call") (Text "100") (Text "10"))
                         = Text "Put")
              then - spec_gex 100 100 0.2 1 10 1
              else spec_gex 100 100 0.2 1 10 1) /\
  (forall S' K' r' T' sigma', T' <= 0 -> calculate_gamma S' K' r' T' sigma' = 0).
Proof.
  apply (calculate_signed_gex_formula float_digits
           (mkRow (Text "Call") (Text "100") (Text "10")) 100 100 0.2 1 10 1);
    [lra | lra | lra | lra | lra | reflexivity | reflexivity].
Defined.

(** C3 as stated fails in its converse: with no time left to expiry the
    gamma factor is 0, so a row with open interest 10 has exposure 0. *)
Lemma zero_gex_with_open_interest :
  to_float float_digits (OI (mkRow (Text "Call") (Text "100") (Text "10")))
    = Returned 10 /\
  10 <> 0 /\
  calculate_signed_gex float_digits
    (mkRow (Text "Call") (Text "100") (Text "10")) 100 0.2 1 0 = Returned 0.
Proof.
  split; [reflexivity | split; [lra | ]].
  rewrite (calculate_signed_gex_nonzero_oi float_digits
             (mkRow (Text "Call") (Text "100") (Text "10")) 100 0.2 1 0 100 10
             to_float_100 to_float_10) by lra.
  cbn [OptionType]. rewrite decide_False by done.
  rewrite calculate_gamma_no_time by lra. f_equal. lra.
Qed.

(** C3, amended.  A row whose open interest is 0 has exposure 0 whatever
    the spot, strike, volatility and time to expiry, T = 0 included.  The
    converse holds only away from the guard on T: for T <= 0 the exposure
    is 0 whatever the open interest; for S > 0, K > 0, sigma > 0, T > 0
    and a multiplier that is not 0, in exact real arithmetic, the exposure
    is 0 only when the open interest is 0. *)
Theorem zero_gex_iff_zero_open_interest
    (float : string -> option R) (row : Row) (strike : R) :
  to_float float (Strike row) = Returned strike ->
  (forall spot iv mult t,
     to_float float (OI row) = Returned 0 ->
     calculate_signed_gex float row spot iv mult t = Returned 0) /\
  (forall spot iv mult t oi,
     t <= 0 ->
     to_float float (OI row) = Returned oi ->
     calculate_signed_gex float row spot iv mult t = Returned 0) /\
  (forall spot iv mult t oi,
     0 < spot -> 0 < strike -> 0 < iv -> 0 < t -> mult <> 0 ->
     to_float float (OI row) = Returned oi ->
     calculate_signed_gex float row spot iv mult t = Returned 0 ->
     oi = 0).
Proof.
  intros Hstrike. split; [ | split].
  - intros spot iv mult t Hoi.
    by apply (calculate_signed_gex_zero_oi float _ _ _ _ _ strike).
  - intros spot iv mult t oi Ht Hoi.
    destruct (Req_dec_T oi 0) as [-> | Hnz].
    + by apply (calculate_signed_gex_zero_oi float _ _ _ _ _ strike).
    + rewrite (calculate_signed_gex_nonzero_oi float row spot iv mult t strike oi)
        by done.
      rewrite calculate_gamma_no_time by done.
      destruct (decide _); f_equal; lra.
  - intros spot iv mult t oi Hspot HK Hiv Ht Hmult Hoi Hzero.
    destruct (Req_dec_T oi 0) as [-> | Hnz]; [done | exfalso].
    rewrite (calculate_signed_gex_nonzero_oi float row spot iv mult t strike oi)
      in Hzero by done.
    pose proof (calculate_gamma_pos spot strike 0 t iv Hspot Hiv Ht) as Hgamma.
    assert (calculate_gamma spot strike 0 t iv * oi * spot * (1 / 100) * mult <> 0)
      as Hprod.
    { repeat apply Rmult_integral_contrapositive_currified; lra. }
    destruct (decide _); injection Hzero as Hzero; lra.
Qed.

(** The short circuit at work on a row with open interest 0 at T = 0. *)
Lemma zero_gex_iff_zero_open_interest_witness :
  calculate_signed_gex float_digits
    (mkRow (Text "Call") (Text "100") (Text "0")) 100 0.2 1 0 = Returned 0.
Proof.
  apply (proj1 (zero_gex_iff_zero_open_interest float_digits
                  (mkRow (Text "Call") (Text "100") (Text "0")) 100 to_float_100)
               100 0.2 1 0).
  reflexivity.
Defined.

(** C4.  With the same strike, open interest, spot, volatility, multiplier
    and time to expiry, the outcome for a Put row is the outcome for the
    Call row with its value negated. *)
Theorem put_gex_negates_call_gex
    (float : string -> option R) (strike oi : cell) (spot iv mult t : R) :
  calculate_signed_gex float (mkRow (Text "Put") strike oi) spot iv mult t =
  Ropp <$> calculate_signed_gex float (mkRow (Text "Call") strike oi) spot iv mult t.
Proof.
  unfold calculate_signed_gex. cbn [OptionType Strike OI].
  destruct (to_float float strike) as [k | e]; [ | done].
  destruct (to_float float oi) as [o | e]; [ | done].
  cbn [mbind outcome_bind]. destruct (Req_dec_T o 0).
  - cbn [fmap outcome_fmap]. f_equal. lra.
  - rewrite decide_True by done. by rewrite decide_False by done.
Qed.

(** *** Aggregation by strike *)

Lemma series_sum_Permutation l l' : l ≡ₚ l' -> series_sum l = series_sum l'.
Proof.
  unfold series_sum.
  induction 1 as [|x l l' _ IH|x y l|l l' l'' _ IH1 _ IH2]; simpl in *; lra.
Qed.


Lemma add_to_group_total k v groups :
  series_sum (add_to_group k v groups).*2 = series_sum groups.*2 + v.
Proof.
  unfold series_sum. induction groups as [|[k' t] groups IH]; csimpl.
  - lra.
  - destruct (decide (k = k')); csimpl; [lra | ]. rewrite IH. lra.
Qed.

Lemma fold_groups_total rows groups :
  series_sum (foldl (fun groups row => add_to_group row.1 row.2 groups) groups rows).*2
  = series_sum groups.*2 + series_sum rows.*2.
Proof.
  revert groups. induction rows as [|row rows IH]; intros groups; csimpl.
  - unfold series_sum. simpl. lra.
  - rewrite IH, add_to_group_total. unfold series_sum. simpl. lra.
Qed.

Lemma add_to_group_keys k v groups :
  (add_to_group k v groups).*1 =
  if decide (k ∈ groups.*1) then groups.*1 else (groups.*1 ++ [k])%list.
Proof.
  induction groups as [|[k' t] groups IH]; csimpl.
  - destruct (decide (k ∈ [])) as [Hin | _]; [by apply elem_of_nil in Hin | done].
  - destruct (decide (k = k')) as [-> | Hne]; csimpl.
    + destruct (decide (k' ∈ k' :: groups.*1)) as [_ | Hout]; [done | ].
      exfalso. apply Hout. by left.
    + rewrite IH.
      destruct (decide (k ∈ groups.*1)) as [Hin | Hout],
               (decide (k ∈ k' :: groups.*1)) as [Hin' | Hout']; try done.
      * exfalso. apply Hout'. by right.
      * apply elem_of_cons in Hin' as [? | ?]; done.
Qed.

Lemma add_to_group_NoDup k v groups :
  NoDup groups.*1 -> NoDup (add_to_group k v groups).*1.
Proof.
  intros Hnodup. rewrite add_to_group_keys.
  destruct (decide (k ∈ groups.*1)) as [Hin | Hout]; [done | ].
  apply NoDup_app. split; [done | split; [ | apply NoDup_singleton]].
  intros x Hx Hk. apply list_elem_of_singleton in Hk. by subst x.
Qed.

Lemma fold_groups_NoDup rows groups :
  NoDup groups.*1 ->
  NoDup (foldl (fun groups row => add_to_group row.1 row.2 groups) groups rows).*1.
Proof.
  revert groups. induction rows as [|row rows IH]; intros groups Hnodup; simpl.
  - done.
  - apply IH. by apply add_to_group_NoDup.
Qed.

Lemma filter_all {A} (P : A -> Prop) `{!forall x, Decision (P x)} (l : list A) :
  Forall P l -> filter P l = l.
Proof.
  induction 1 as [|x l Hx _ IH]; [done | ].
  by rewrite filter_cons_True, IH.
Qed.

Lemma cumsum_from_length acc values :
  length (cumsum_from acc values) = length values.
Proof.
  revert acc. induction values as [|x values IH]; intros acc; simpl; [done | ].
  by rewrite IH.
Qed.

Lemma cumsum_from_step acc values i c x :
  (acc :: cumsum_from acc values) !! i = Some c ->
  values !! i = Some x ->
  cumsum_from acc values !! i = Some (c + x).
Proof.
  revert acc i. induction values as [|y values IH]; intros acc i Hc Hx.
  - by rewrite lookup_nil in Hx.
  - destruct i as [|i]; simpl in *.
    + injection Hc as <-. by injection Hx as <-.
    + by apply IH.
Qed.

Lemma apply_gex_length float df spot iv mult t gex :
  apply_gex float df spot iv mult t = Returned gex -> length gex = length df.
Proof.
  revert gex. induction df as [|row df IH]; intros gex; simpl.
  - by intros [= <-].
  - destruct (calculate_signed_gex float row spot iv mult t) as [g | e]; [ | done].
    cbn [mbind outcome_bind].
    destruct (apply_gex float df spot iv mult t) as [gs | e]; [ | done].
    cbn [mbind outcome_bind]. intros [= <-]. simpl. by rewrite (IH gs).
Qed.

Section Aggregation.

Context (strike_le : relation cell) `{!RelDecision strike_le}.

#[local] Instance key_le_transitive `{!Transitive strike_le} :
  Transitive (key_le strike_le).
Proof. intros a b c. unfold key_le. apply transitivity. Qed.

#[local] Instance key_le_total `{!Total strike_le} : Total (key_le strike_le).
Proof. intros a b. unfold key_le. apply total. apply _. Qed.

Lemma sort_index_Permutation series : sort_index strike_le series ≡ₚ series.
Proof. apply merge_sort_Permutation. Qed.

Lemma groupby_sum_total strike_gex :
  Forall (fun row => Parse.notna row.1 = true) strike_gex ->
  series_sum (groupby_sum strike_le strike_gex).*2 = series_sum strike_gex.*2.
Proof.
  intros Hkeys. unfold groupby_sum.
  rewrite (series_sum_Permutation _ _ (fmap_Permutation snd _ _ (merge_sort_Permutation _ _))).
  rewrite filter_all by done. rewrite fold_groups_total.
  unfold series_sum. simpl. lra.
Qed.

Lemma gex_by_strike_total strike_gex :
  Forall (fun row => Parse.notna row.1 = true) strike_gex ->
  series_sum (gex_by_strike strike_le strike_gex).*2 = series_sum strike_gex.*2.
Proof.
  intros Hkeys. unfold gex_by_strike.
  rewrite (series_sum_Permutation _ _ (fmap_Permutation snd _ _ (sort_index_Permutation _))).
  by apply groupby_sum_total.
Qed.

Lemma gex_by_strike_NoDup strike_gex :
  NoDup (gex_by_strike strike_le strike_gex).*1.
Proof.
  unfold gex_by_strike, groupby_sum, sort_index.
  rewrite !merge_sort_Permutation.
  apply fold_groups_NoDup. simpl. apply NoDup_nil_2.
Qed.

Lemma gex_by_strike_sorted `{!Transitive strike_le, !Total strike_le} strike_gex :
  StronglySorted strike_le (gex_by_strike strike_le strike_gex).*1.
Proof.
  unfold gex_by_strike, sort_index.
  apply StronglySorted_fmap with (R1 := key_le strike_le); [done | ].
  apply (StronglySorted_merge_sort (key_le strike_le)).
Qed.

End Aggregation.

#[global] Instance numeral_le_transitive : Transitive numeral_le.
Proof. intros a b c. unfold numeral_le. lia. Qed.

#[global] Instance numeral_le_total : Total numeral_le.
Proof. intros a b. unfold numeral_le. lia. Qed.

(** C7.  For every sequence of records whose strikes are present, the
    net values of the per-strike series add up to the sum of the GEX
    column: grouping by strike and summing loses and duplicates
    nothing.  The same holds for the series and the GEX column that
    [main] computes. *)
Theorem aggregation_preserves_total
    (strike_le : relation cell) `{!RelDecision strike_le} :
  (forall strike_gex : list (cell * R),
     Forall (fun row => Parse.notna row.1 = true) strike_gex ->
     series_sum (gex_by_strike strike_le strike_gex).*2
     = series_sum strike_gex.*2) /\
  (forall float df gex by_strike cumulative_gex,
     Forall (fun row => Parse.notna (Strike row) = true) df ->
     main float strike_le df = Returned (gex, by_strike, cumulative_gex) ->
     series_sum by_strike.*2 = series_sum gex).
Proof.
  split; [apply gex_by_strike_total | ].
  intros float df gex by_strike cumulative_gex Hkeys. unfold main.
  destruct (apply_gex float df SPOT IV MULT T) as [gex' | e] eqn:Hgex; [ | done].
  cbn [mbind outcome_bind]. intros [= <- <- _].
  apply apply_gex_length in Hgex.
  rewrite gex_by_strike_total.
  - rewrite snd_zip; [done | ]. rewrite length_map. lia.
  - apply Forall_forall. intros [k g] Hin. apply elem_of_zip_l in Hin.
    apply list_elem_of_fmap in Hin as (row & -> & Hrow).
    by apply (proj1 (Forall_forall _ _) Hkeys).
Qed.

(** The invariance at work on three records, two of them at strike 100. *)
Lemma aggregation_preserves_total_witness :
  series_sum
    (gex_by_strike numeral_le
       [(Numeric "105", 2); (Numeric "100", 1); (Numeric "100", -3)]).*2
  = series_sum [(Numeric "105", 2); (Numeric "100", 1); (Numeric "100", -3)].*2.
Proof.
  apply (proj1 (aggregation_preserves_total numeral_le)).
  repeat constructor.
Defined.

Lemma to_float_9000 : to_float float_digits (Text "9,000") = Returned 9000.
Proof. reflexivity. Qed.

Lemma to_float_10000 : to_float float_digits (Text "10,000") = Returned 10000.
Proof. reflexivity. Qed.

(** C8.  [main] on two Call rows whose Strike cells are the texts "9,000"
    and "10,000": the exposures are computed for the strikes 9000 and
    10000, yet the per-strike series and the cumulative series come out
    with "10,000" first, in the text order of the raw Strike column and
    not in ascending order of strike. *)
Theorem comma_strikes_come_out_in_text_order :
  to_float float_digits (Text "9,000") = Returned 9000 /\
  to_float float_digits (Text "10,000") = Returned 10000 /\
  exists g9 g10,
    main float_digits (strike_column_le float_digits)
      [mkRow (Text "Call") (Text "9,000") (Text "10");
       mkRow (Text "Call") (Text "10,000") (Text "10")] =
    Returned ([g9; g10],
              [(Text "10,000", g10); (Text "9,000", g9)],
              [(Text "10,000", g10); (Text "9,000", g10 + g9)]).
Proof.
  split; [reflexivity | split; [reflexivity | ]].
  unfold main. cbn [apply_gex].
  rewrite (calculate_signed_gex_nonzero_oi float_digits
             (mkRow (Text "Call") (Text "9,000") (Text "10")) SPOT IV MULT T 9000 10
             to_float_9000 to_float_10) by lra.
  rewrite (calculate_signed_gex_nonzero_oi float_digits
             (mkRow (Text "Call") (Text "10,000") (Text "10")) SPOT IV MULT T 10000 10
             to_float_10000 to_float_10) by lra.
  cbn [OptionType]. rewrite !decide_False by done.
  cbn [mbind outcome_bind].
  generalize (calculate_gamma SPOT 9000 0 T IV * 10 * SPOT * (1 / 100) * MULT).
  generalize (calculate_gamma SPOT 10000 0 T IV * 10 * SPOT * (1 / 100) * MULT).
  intros g10 g9. exists g9, g10. reflexivity.
Qed.

End GexFacts.

(** ** Further properties of parse_options_data.py *)

Module ParseProps.

Import Parse Spec ParseFacts.

(** *** Segments and extraction *)

Lemma extract_chain (df : Grid) start segs stop :
  contiguous_from start segs stop ->
  segs ≫= (fun seg => extract_table df seg.1 seg.2)
  = take (stop - start) (drop start df).
Proof.
  revert start. induction segs as [|[s e] segs IH]; intros start;
    cbn [contiguous_from].
  - intros ->. by rewrite Nat.sub_diag.
  - cbn [fst snd]. intros (-> & Hle & Hrest).
    pose proof (contiguous_from_le _ _ _ Hrest) as Hstop.
    rewrite bind_cons, (IH _ Hrest). unfold extract_table, iloc_slice.
    cbn [fst snd].
    replace (drop (e + 1) df) with (drop (e + 1 - start) (drop start df))
      by (rewrite drop_drop; f_equal; lia).
    rewrite take_take_drop. f_equal. lia.
Qed.

(** Extracting every segment that [find_table_boundaries] returns and
    putting the pieces one after the other gives the grid back: no row is
    lost, repeated or moved. *)
Theorem extracted_segments_rebuild_grid (df : Grid) :
  find_table_boundaries df ≫= (fun seg => extract_table df seg.1 seg.2) = df.
Proof.
  rewrite (extract_chain df 0 _ (length df)).
  - rewrite Nat.sub_0_r, drop_0. by apply take_ge.
  - apply find_table_boundaries_chain.
Qed.

(** What the scan keeps about the rows inside segments: [clear j] says
    that row [j] is not a sentinel. *)
Lemma scan_boundaries_interior (clear : nat -> Prop) rows idx
    table_boundaries table_start :
  (forall k row, rows !! k = Some row ->
                 is_sentinel (row_text row) = false -> clear (idx + k)) ->
  (forall j, table_start <= j < idx -> clear j) ->
  (forall s e, (s, e) ∈ table_boundaries -> forall j, s <= j < e -> clear j) ->
  (forall s e,
     (s, e) ∈ (scan_boundaries rows idx table_boundaries table_start).1 ->
     forall j, s <= j < e -> clear j) /\
  (forall j,
     (scan_boundaries rows idx table_boundaries table_start).2 <= j
       < idx + length rows -> clear j).
Proof.
  revert idx table_boundaries table_start.
  induction rows as [|row rows IH]; intros idx tb ts Hrows Hopen Hclosed; simpl.
  - split; [done | ]. intros j Hj. apply Hopen. lia.
  - fold (row_text row). destruct (is_sentinel (row_text row)) eqn:Hs.
    + destruct (IH (S idx) (tb ++ [(ts, idx)])%list (idx + 1)) as [H1 H2].
      * intros k r Hk Hr. replace (S idx + k) with (idx + S k) by lia.
        by apply (Hrows (S k) r).
      * intros j Hj. lia.
      * intros s e Hin j Hj. apply elem_of_app in Hin as [Hin | Hin].
        -- by apply (Hclosed s e).
        -- apply list_elem_of_singleton in Hin. injection Hin as -> ->.
           by apply Hopen.
      * split; [done | ]. intros j Hj. apply H2. lia.
    + destruct (IH (S idx) tb ts) as [H1 H2].
      * intros k r Hk Hr. replace (S idx + k) with (idx + S k) by lia.
        by apply (Hrows (S k) r).
      * intros j Hj. destruct (decide (j = idx)) as [-> | Hne].
        -- replace idx with (idx + 0) by lia. by apply (Hrows 0 row).
        -- apply Hopen. lia.
      * done.
      * split; [done | ]. intros j Hj. apply H2. lia.
Qed.

(** A sentinel row is never inside a segment: in every segment that
    [find_table_boundaries] returns, the rows before the last one are not
    sentinels. *)
Theorem segment_interior_has_no_sentinel (df : Grid) (s e j : nat) (row : Row) :
  (s, e) ∈ find_table_boundaries df ->
  s <= j < e ->
  df !! j = Some row ->
  ~ closes_segment (row_text row).
Proof.
  intros Hin Hj Hrow. rewrite <- is_sentinel_spec.
  destruct (scan_boundaries_interior
              (fun j => forall r, df !! j = Some r -> is_sentinel (row_text r) = false)
              df 0 [] 0) as [Hclosed Hopen].
  - intros k r Hk Hr r' Hk'. simpl in Hk'. congruence.
  - intros i Hi. lia.
  - intros s' e' Hnil. by apply elem_of_nil in Hnil.
  - unfold find_table_boundaries in Hin.
    destruct (scan_boundaries df 0 [] 0) as [tb ts]. simpl in *.
    assert (Hcase : (s, e) ∈ tb \/ ((s, e) = (ts, length df - 1) /\ ts < length df)).
    { destruct (Nat.ltb_spec ts (length df)); [ | by left].
      apply elem_of_app in Hin as [Hin | Hin]; [by left | right].
      apply list_elem_of_singleton in Hin. done. }
    destruct Hcase as [Htb | [[= -> ->] Hts]].
    + rewrite (Hclosed s e Htb j Hj row Hrow). done.
    + rewrite (Hopen j) with (r := row); [done | lia | done].
Qed.

Lemma segment_interior_has_no_sentinel_witness :
  ~ closes_segment
      (row_text (mkRow (Text "Month") [])).
Proof.
  apply (segment_interior_has_no_sentinel
           [mkRow (Text "Month") []; mkRow (Text "TOTALS") []; mkRow (Text "x") []]
           0 1 0 (mkRow (Text "Month") [])).
  - vm_compute. by left.
  - lia.
  - reflexivity.
Defined.

(** *** The header row *)

Lemma month_test_spec row :
  existsb (String.eqb "month")
    (map (fun val => if notna val
                     then PyStr.lower (PyStr.strip (py_str val)) else "")
       (cells row)) = true
  <-> has_month_cell row.
Proof.
  unfold has_month_cell. rewrite existsb_exists. split.
  - intros (text & Hin & Heq). apply String.eqb_eq in Heq. subst text.
    apply in_map_iff in Hin as (c & Hc & Hin). apply list_elem_of_In in Hin.
    exists c. split; [done | ]. destruct c; [discriminate | by split..].
  - intros (c & Hin & Hna & Hc). exists "month". split; [ | by apply String.eqb_eq].
    apply in_map_iff. exists c. split; [ | by apply list_elem_of_In].
    by destruct c.
Qed.

Lemma scan_header_spec (df : Grid) count idx start_row :
  (0 < count -> idx + count <= length df) ->
  exists h,
    scan_header df count idx start_row = Returned h /\
    ((idx <= h < idx + count /\
      (exists row, df !! h = Some row /\ has_month_cell row) /\
      (forall j row, idx <= j < h -> df !! j = Some row -> ~ has_month_cell row)) \/
     (h = start_row /\
      forall j row, idx <= j < idx + count -> df !! j = Some row ->
                    ~ has_month_cell row)).
Proof.
  revert idx. induction count as [|count IH]; intros idx Hlen; cbn [scan_header].
  - exists start_row. split; [done | right]. split; [done | ]. intros j row Hj. lia.
  - destruct (lookup_lt_is_Some_2 df idx) as [row Hrow]; [lia | ].
    rewrite Hrow. destruct (existsb _ _) eqn:Htest.
    + exists idx. split; [done | left]. split; [lia | split].
      * exists row. split; [done | by apply month_test_spec].
      * intros j r Hj. lia.
    + destruct (IH (S idx)) as (h & Hh & Hcases); [lia | ].
      exists h. split; [done | ].
      assert (Hidx : ~ has_month_cell row).
      { rewrite <- month_test_spec. by rewrite Htest. }
      destruct Hcases as [(Hrange & Hmonth & Hfirst) | [-> Hnone]].
      * left. split; [lia | split; [done | ]]. intros j r Hj Hr.
        destruct (decide (j = idx)) as [-> | Hne]; [congruence | ].
        apply (Hfirst j); [lia | done].
      * right. split; [done | ]. intros j r Hj Hr.
        destruct (decide (j = idx)) as [-> | Hne]; [congruence | ].
        apply (Hnone j); [lia | done].
Qed.

(** When the range ends inside the grid, [find_header_row] returns the
    first row of the range that holds a "month" cell (compared trimmed, in
    lower case), and [start_row] when the range holds none, an empty range
    included; it never raises. *)
Theorem find_header_row_first_month_row (df : Grid) (start_row end_row : nat) :
  end_row < length df ->
  exists h,
    find_header_row df start_row end_row = Returned h /\
    ((start_row <= h <= end_row /\
      (exists row, df !! h = Some row /\ has_month_cell row) /\
      (forall j row, start_row <= j < h -> df !! j = Some row ->
                     ~ has_month_cell row)) \/
     (h = start_row /\
      forall j row, start_row <= j <= end_row -> df !! j = Some row ->
                    ~ has_month_cell row)).
Proof.
  intros Hend. unfold find_header_row.
  destruct (scan_header_spec df (end_row + 1 - start_row) start_row start_row)
    as (h & Hh & Hcases); [lia | ].
  exists h. split; [done | ].
  destruct Hcases as [(Hrange & Hmonth & Hfirst) | [-> Hnone]].
  - left. split; [lia | by split].
  - right. split; [done | ]. intros j row Hj. apply Hnone. lia.
Qed.

Lemma find_header_row_first_month_row_witness :
  exists h,
    find_header_row
      [mkRow (Text "Options") [NaN]; mkRow (Text " Month ") [Text "Last"];
       mkRow (Text "MAR 26") [Numeric "1"]] 0 2 = Returned h /\
    ((0 <= h <= 2 /\
      (exists row,
         [mkRow (Text "Options") [NaN]; mkRow (Text " Month ") [Text "Last"];
          mkRow (Text "MAR 26") [Numeric "1"]] !! h = Some row /\
         has_month_cell row) /\
      (forall j row, 0 <= j < h ->
         [mkRow (Text "Options") [NaN]; mkRow (Text " Month ") [Text "Last"];
          mkRow (Text "MAR 26") [Numeric "1"]] !! j = Some row ->
         ~ has_month_cell row)) \/
     (h = 0 /\
      forall j row, 0 <= j <= 2 ->
        [mkRow (Text "Options") [NaN]; mkRow (Text " Month ") [Text "Last"];
         mkRow (Text "MAR 26") [Numeric "1"]] !! j = Some row ->
        ~ has_month_cell row)).
Proof.
  apply (find_header_row_first_month_row
           [mkRow (Text "Options") [NaN]; mkRow (Text " Month ") [Text "Last"];
            mkRow (Text "MAR 26") [Numeric "1"]] 0 2).
  simpl. lia.
Defined.

(** *** Month discovery *)

Lemma first_segment (df : Grid) :
  df <> [] ->
  exists stop others,
    find_table_boundaries df = (0, stop) :: others /\ stop < length df.
Proof.
  intros Hne. pose proof (find_table_boundaries_chain df) as Hchain.
  destruct (find_table_boundaries df) as [|[s e] others]; simpl in Hchain.
  - destruct df; [done | discriminate].
  - destruct Hchain as (-> & Hle & Hrest). exists e, others. split; [done | ].
    apply contiguous_from_le in Hrest. lia.
Qed.

Lemma find_header_row_bounds (df : Grid) start_row end_row :
  end_row < length df ->
  exists h, find_header_row df start_row end_row = Returned h /\
            (h <= end_row \/ h = start_row).
Proof.
  intros Hend. unfold find_header_row.
  destruct (scan_header_spec df (end_row + 1 - start_row) start_row start_row)
    as (h & Hh & Hcases); [lia | ].
  exists h. split; [done | ].
  destruct Hcases as [(Hrange & _) | [-> _]]; [left; lia | by right].
Qed.

Lemma get_months_errors first_table e :
  get_months_from_first_table first_table = Raised e ->
  e = AttributeError \/ e = ValueError month_column_error (columns first_table).
Proof.
  unfold get_months_from_first_table.
  destruct (first_header _ _) as [month_col|]; [ | intros [= <-]; by right].
  destruct (filter _ _) as [|c [|c' cs]]; intros [= <-]; by left.
Qed.

(** [parse_options_file] on a loaded grid: an empty grid is refused with
    "No tables found in the file"; on a non-empty grid that error never
    occurs and no row is read out of bounds, the only failures being the
    missing "Month" column and the doubled "Month" label of
    [get_months_from_first_table]; a successful call hands back the grid it
    was given. *)
Theorem parse_options_file_outcomes :
  parse_options_file [] = Raised (ValueError "No tables found in the file" []) /\
  (forall (df : Grid) e,
     df <> [] ->
     parse_options_file df = Raised e ->
     e = AttributeError \/ exists cols, e = ValueError month_column_error cols) /\
  (forall (df : Grid) months df',
     parse_options_file df = Returned (months, df') -> df' = df).
Proof.
  split; [done | split].
  - intros df e Hne. unfold parse_options_file.
    destruct (first_segment df Hne) as (stop & others & -> & Hstop).
    destruct (find_header_row_bounds df 0 stop Hstop) as (h & -> & Hh).
    cbn [mbind outcome_bind].
    destruct (lookup_lt_is_Some_2 df h) as [header ->]; [lia | ].
    destruct (get_months_from_first_table _) as [ms | err] eqn:Hmonths; [done | ].
    cbn [mbind outcome_bind]. intros [= <-].
    apply get_months_errors in Hmonths as [-> | ->]; [by left | right; by eexists].
  - intros df months df'. unfold parse_options_file.
    destruct (find_table_boundaries df) as [|[s e] others]; [done | ].
    destruct (find_header_row df s e) as [h | err]; [ | done].
    cbn [mbind outcome_bind]. destruct (df !! h) as [header | ]; [ | done].
    destruct (get_months_from_first_table _) as [ms | err]; [ | done].
    cbn [mbind outcome_bind]. by intros [= _ <-].
Qed.

Lemma parse_options_file_outcomes_witness :
  [mkRow (Text "Symbol") []; mkRow (Text "MAR 26") []] <> [] /\
  (ValueError month_column_error [Text "Symbol"] = AttributeError \/
   exists cols,
     ValueError month_column_error [Text "Symbol"]
     = ValueError month_column_error cols).
Proof.
  split; [discriminate | ].
  apply (proj1 (proj2 parse_options_file_outcomes)
           [mkRow (Text "Symbol") []; mkRow (Text "MAR 26") []]
           (ValueError month_column_error [Text "Symbol"]));
    [discriminate | reflexivity].
Defined.

Lemma elem_of_unique_from seen l x : x ∈ unique_from seen l -> x ∈ l.
Proof.
  revert seen. induction l as [|y l IH]; intros seen; simpl; [done | ].
  destruct (decide (y ∈ seen)).
  - intros Hx. right. by apply (IH seen).
  - intros Hx. apply elem_of_cons in Hx as [-> | Hx]; [by left | ].
    right. by apply (IH (y :: seen)).
Qed.

Lemma elem_of_pick label header row c : c ∈ pick label header row -> c ∈ row.
Proof.
  unfold pick. intros Hc. apply list_elem_of_fmap in Hc as ([l c'] & -> & Hin).
  apply list_elem_of_filter in Hin as [_ Hin]. by apply elem_of_zip_r in Hin.
Qed.

(** Every month that [get_months_from_first_table] returns is the trimmed
    text of a present cell found under the "Month" column, and none of
    them reads "TOTALS" in any letter case. *)
Theorem months_are_month_cells_without_totals
    (first_table : Table) (months : list string) (m : string) :
  get_months_from_first_table first_table = Returned months ->
  m ∈ months ->
  PyStr.upper m <> "TOTALS" /\
  exists month_col row c,
    month_col ∈ columns first_table /\ header_matches "month" month_col /\
    row ∈ rows first_table /\ c ∈ pick month_col (columns first_table) row /\
    c ∈ row /\ c <> NaN /\ m = PyStr.strip (py_str c).
Proof.
  unfold get_months_from_first_table.
  destruct (first_header _ _) as [month_col|] eqn:Hcol; [ | done].
  destruct (filter _ (columns first_table)) as [|c0 [|c1 cs]]; [done | | done].
  intros [= <-] Hm.
  apply list_elem_of_fmap in Hm as (c & -> & Hc).
  apply list_elem_of_filter in Hc as [Hupper Hc].
  apply elem_of_unique_from, list_elem_of_filter in Hc as [Hna Hc].
  apply list_elem_of_bind in Hc as (row & Hc & Hrow).
  split; [done | ].
  destruct (first_header_Some _ _ _ Hcol) as [Hin Hmatch].
  exists month_col, row, c. repeat split; try done.
  - by apply elem_of_pick in Hc.
  - by intros ->.
Qed.

Lemma months_are_month_cells_without_totals_witness :
  PyStr.upper "MAR 26" <> "TOTALS" /\
  exists month_col row c,
    month_col ∈ [Text "Month"; Text "Last"] /\ header_matches "month" month_col /\
    row ∈ [[Text " MAR 26"; Numeric "1"]; [Text "Totals"; Numeric "1"]] /\
    c ∈ pick month_col [Text "Month"; Text "Last"] row /\
    c ∈ row /\ c <> NaN /\ "MAR 26" = PyStr.strip (py_str c).
Proof.
  apply (months_are_month_cells_without_totals
           (mkTable [Text "Month"; Text "Last"]
              [[Text " MAR 26"; Numeric "1"]; [Text "Totals"; Numeric "1"]])
           ["MAR 26"] "MAR 26").
  - reflexivity.
  - by left.
Defined.

(** *** Locating the table of a month *)

Lemma title_search (rows : list Row) title :
  (forall row, row ∈ rows -> row_text row <> title) \/
  exists k row,
    rows !! k = Some row /\ row_text row = title /\
    forall j r, j < k -> rows !! j = Some r -> row_text r <> title.
Proof.
  induction rows as [|row rows IH].
  - left. intros row Hrow. by apply elem_of_nil in Hrow.
  - destruct (decide (row_text row = title)) as [Heq | Hne].
    + right. exists 0, row. repeat split; [done | ]. intros j r Hj. lia.
    + destruct IH as [Hnone | (k & r & Hk & Hr & Hfirst)].
      * left. intros r Hr. apply elem_of_cons in Hr as [-> | Hr]; [done | by apply Hnone].
      * right. exists (S k), r. repeat split; [done | done | ].
        intros [|j] r' Hj Hr'; [by injection Hr' as <- | ].
        apply (Hfirst j); [lia | done].
Qed.

(** The three outcomes of [find_table_for_month]: the empty table and
    not-found when no row carries the title; [IndexError] when the first
    row that carries it is the last row of the grid; a table and found in
    every other case. *)
Theorem find_table_for_month_outcomes (df : Grid) (month side : string) :
  ((forall row, row ∈ df -> row_text row <> month ++ " " ++ side) /\
   find_table_for_month df month side = Returned (empty_table, false)) \/
  (exists r,
     first_title_row df (month ++ " " ++ side) r /\ r + 1 = length df /\
     find_table_for_month df month side = Raised IndexError) \/
  (exists r table,
     first_title_row df (month ++ " " ++ side) r /\ r + 1 < length df /\
     find_table_for_month df month side = Returned (table, true)).
Proof.
  destruct (title_search df (month ++ " " ++ side))
    as [Hnone | (r & row & Hrow & Htitle & Hfirst)].
  - left. split; [done | by apply scan_title_not_found].
  - right. unfold find_table_for_month.
    rewrite (scan_title_found df _ df 0 r row Hrow Htitle Hfirst).
    rewrite !Nat.add_0_l.
    assert (Hr : first_title_row df (month ++ " " ++ side) r).
    { split; [by exists row | done]. }
    pose proof (lookup_lt_Some _ _ _ Hrow) as Hlt.
    destruct (df !! (r + 1)) as [header|] eqn:Hheader.
    + right. apply lookup_lt_Some in Hheader. eexists r, _.
      split; [exact Hr | split; [exact Hheader | reflexivity]].
    + left. apply lookup_ge_None in Hheader. exists r.
      split; [exact Hr | split; [lia | reflexivity]].
Qed.

(** What a found table holds: its column names are the cells of a grid
    row, and each of its data rows is a grid row that is not entirely
    empty and whose first column is not a sentinel. *)
Theorem found_table_rows_are_data_rows
    (df : Grid) (month side : string) (table : Table) (found : bool) :
  find_table_for_month df month side = Returned (table, found) ->
  (found = false -> table = empty_table) /\
  (found = true ->
   (exists header, header ∈ df /\ columns table = cells header) /\
   forall data, data ∈ rows table ->
     ~ entirely_empty data /\
     exists row, row ∈ df /\ cells row = data /\
                 ~ closes_segment (row_text row)).
Proof.
  unfold find_table_for_month.
  destruct (title_search df (month ++ " " ++ side))
    as [Hnone | (r & row & Hrow & Htitle & Hfirst)].
  - rewrite scan_title_not_found by done. intros [= <- <-]. by split.
  - rewrite (scan_title_found df _ df 0 r row Hrow Htitle Hfirst).
    rewrite !Nat.add_0_l.
    destruct (df !! (r + 1)) as [header|] eqn:Hheader; [ | done].
    intros [= <- <-]. split; [done | intros _]. cbn [columns rows]. split.
    { exists header. split; [by eapply list_elem_of_lookup_2 | done]. }
    intros data Hdata. rewrite dropna_all_spec in Hdata.
    apply list_elem_of_filter in Hdata as [Hfull Hdata]. split; [done | ].
    apply list_elem_of_fmap in Hdata as (drow & -> & Hdrow).
    unfold iloc_slice in Hdrow.
    apply elem_of_take in Hdrow as (i & Hi & Hbound).
    rewrite lookup_drop in Hi.
    exists drow. split; [by eapply list_elem_of_lookup_2 | split; [done | ]].
    rewrite <- is_sentinel_spec.
    destruct (scan_table_end_spec (drop (r + 2) df) (r + 2) (length df - 1))
      as [(k & srow & Hk & Hs & Hbefore & Heq) | [Hnoneafter Heq]].
    + rewrite Heq in Hbound. rewrite (Hbefore i drow); [done | lia | ].
      by rewrite lookup_drop.
    + rewrite (Hnoneafter i drow); [done | ]. by rewrite lookup_drop.
Qed.

Lemma found_table_rows_are_data_rows_witness :
  (true = false ->
   mkTable [Text "Strike"; Text "At Close"] [[Numeric "100"; Numeric "10"]]
   = empty_table) /\
  (true = true ->
   (exists header,
      header ∈ [mkRow (Text "JUN 26 Calls") [NaN];
                mkRow (Text "Strike") [Text "At Close"];
                mkRow (Numeric "100") [Numeric "10"];
                mkRow (Text "TOTALS") [Numeric "10"]] /\
      columns (mkTable [Text "Strike"; Text "At Close"]
                 [[Numeric "100"; Numeric "10"]]) = cells header) /\
   forall data,
     data ∈ rows (mkTable [Text "Strike"; Text "At Close"]
                    [[Numeric "100"; Numeric "10"]]) ->
     ~ entirely_empty data /\
     exists row,
       row ∈ [mkRow (Text "JUN 26 Calls") [NaN];
              mkRow (Text "Strike") [Text "At Close"];
              mkRow (Numeric "100") [Numeric "10"];
              mkRow (Text "TOTALS") [Numeric "10"]] /\
       cells row = data /\ ~ closes_segment (row_text row)).
Proof.
  apply (found_table_rows_are_data_rows
           [mkRow (Text "JUN 26 Calls") [NaN];
            mkRow (Text "Strike") [Text "At Close"];
            mkRow (Numeric "100") [Numeric "10"];
            mkRow (Text "TOTALS") [Numeric "10"]] "JUN 26" "Calls").
  reflexivity.
Defined.

(** *** Column projection and the rows written for a month *)

Lemma pick_nil_l label row : pick label [] row = [].
Proof. done. Qed.

Lemma pick_nil_r label header : pick label header [] = [].
Proof. by destruct header. Qed.

Lemma pick_cons label c header v row :
  pick label (c :: header) (v :: row) =
  if decide (c = label) then v :: pick label header row
  else pick label header row.
Proof.
  unfold pick. cbn [zip zip_with]. destruct (decide (c = label)) as [Heq | Hne].
  - by rewrite filter_cons_True.
  - by rewrite filter_cons_False.
Qed.

Lemma pick_absent label header row : label ∉ header -> pick label header row = [].
Proof.
  revert row. induction header as [|c header IH]; intros row Hout; [done | ].
  destruct row as [|v row]; [apply pick_nil_r | ].
  apply not_elem_of_cons in Hout as [Hne Hout].
  rewrite pick_cons, decide_False by done. by apply IH.
Qed.

Lemma pick_lookup label header row i v :
  NoDup header -> header !! i = Some label -> row !! i = Some v ->
  pick label header row = [v].
Proof.
  intros Hnodup. revert row i.
  induction Hnodup as [|c header Hout Hnodup IH]; intros row i Hlabel Hv.
  - by rewrite lookup_nil in Hlabel.
  - destruct row as [|x row]; [by rewrite lookup_nil in Hv | ].
    rewrite pick_cons. destruct i as [|i]; simpl in Hlabel, Hv.
    + injection Hlabel as ->. injection Hv as ->.
      rewrite decide_True by done. by rewrite pick_absent.
    + rewrite decide_False.
      * by apply (IH row i).
      * intros ->. apply Hout. by eapply list_elem_of_lookup_2.
Qed.

Lemma pick_length_NoDup label header row :
  NoDup header -> length (pick label header row) <= 1.
Proof.
  intros Hnodup. revert row.
  induction Hnodup as [|c header Hout Hnodup IH]; intros row; [simpl; lia | ].
  destruct row as [|x row]; [rewrite pick_nil_r; simpl; lia | ].
  rewrite pick_cons. destruct (decide (c = label)) as [-> | Hne]; [ | apply IH].
  rewrite pick_absent by done. simpl. lia.
Qed.

Lemma filter_table_columns_one_label table name other label :
  (name = "strike" /\ other = "at close") \/
  (name = "at close" /\ other = "strike") ->
  first_header name (columns table) = Some label ->
  first_header other (columns table) = None ->
  filter_table_columns table =
    Returned (mkTable (filter (fun c => c = label) (columns table))
                (map (pick label (columns table)) (rows table))).
Proof.
  intros Hnames Hlabel Hother. unfold filter_table_columns.
  destruct Hnames as [[-> ->] | [-> ->]]; rewrite Hlabel, Hother;
    unfold getitem_columns;
    [change (option_list (Some label) ++ option_list None)%list with [label]
    |change (option_list None ++ option_list (Some label))%list with [label]];
    rewrite bind_singleton; do 2 f_equal;
    apply map_ext; intros r; by rewrite bind_singleton.
Qed.

Lemma filter_table_columns_two_labels table ls la :
  first_header "strike" (columns table) = Some ls ->
  first_header "at close" (columns table) = Some la ->
  filter_table_columns table =
    Returned
      (mkTable
         (filter (fun c => c = ls) (columns table) ++
          filter (fun c => c = la) (columns table))%list
         (map (fun r => (pick ls (columns table) r ++
                         pick la (columns table) r)%list)
            (rows table))).
Proof.
  intros Hs Ha. unfold filter_table_columns. rewrite Hs, Ha.
  change (option_list (Some ls) ++ option_list (Some la))%list with [ls; la].
  unfold getitem_columns. rewrite bind_cons, bind_singleton. do 2 f_equal.
  apply map_ext; intros r. by rewrite bind_cons, bind_singleton.
Qed.

(** When both headers are present, [filter_table_columns] puts the columns
    under the first "strike" label before those under the first "at close"
    label, whatever their order in the table; with distinct labels the
    result has exactly these two columns. *)
Theorem filter_table_columns_strike_then_at_close (table : Table) :
  header_present "strike" (columns table) ->
  header_present "at close" (columns table) ->
  exists ls la,
    ls ∈ columns table /\ header_matches "strike" ls /\
    la ∈ columns table /\ header_matches "at close" la /\
    filter_table_columns table =
      Returned
        (mkTable
           (filter (fun c => c = ls) (columns table) ++
            filter (fun c => c = la) (columns table))%list
           (map (fun r => (pick ls (columns table) r ++
                           pick la (columns table) r)%list)
              (rows table))) /\
    (NoDup (columns table) ->
     (filter (fun c => c = ls) (columns table) ++
      filter (fun c => c = la) (columns table))%list = [ls; la]).
Proof.
  intros Hs Ha.
  apply first_header_present in Hs as [ls Hs].
  apply first_header_present in Ha as [la Ha].
  destruct (first_header_Some _ _ _ Hs) as [Hins Hms].
  destruct (first_header_Some _ _ _ Ha) as [Hina Hma].
  exists ls, la. repeat split; try done.
  - by apply filter_table_columns_two_labels.
  - intros Hnodup. by rewrite !filter_eq_NoDup.
Qed.

Lemma filter_table_columns_strike_then_at_close_witness :
  exists ls la,
    ls ∈ [Text "At Close"; Text "Strike"] /\ header_matches "strike" ls /\
    la ∈ [Text "At Close"; Text "Strike"] /\ header_matches "at close" la /\
    filter_table_columns
      (mkTable [Text "At Close"; Text "Strike"] [[Numeric "5"; Numeric "100"]]) =
      Returned
        (mkTable
           (filter (fun c => c = ls) [Text "At Close"; Text "Strike"] ++
            filter (fun c => c = la) [Text "At Close"; Text "Strike"])%list
           (map (fun r => (pick ls [Text "At Close"; Text "Strike"] r ++
                           pick la [Text "At Close"; Text "Strike"] r)%list)
              [[Numeric "5"; Numeric "100"]])) /\
    (NoDup [Text "At Close"; Text "Strike"] ->
     (filter (fun c => c = ls) [Text "At Close"; Text "Strike"] ++
      filter (fun c => c = la) [Text "At Close"; Text "Strike"])%list = [ls; la]).
Proof.
  apply (filter_table_columns_strike_then_at_close
           (mkTable [Text "At Close"; Text "Strike"] [[Numeric "5"; Numeric "100"]])).
  - exists (Text "Strike"). split; [by right; left | reflexivity].
  - exists (Text "At Close"). split; [by left | reflexivity].
Defined.

(** Projection never drops, adds or reorders rows, and a cell of a result
    row always comes from the table row at the same position. *)
Theorem filter_table_columns_keeps_rows (table result : Table) :
  filter_table_columns table = Returned result ->
  Forall2 (fun out row => forall c, c ∈ out -> c ∈ row)
    (rows result) (rows table).
Proof.
  unfold filter_table_columns.
  destruct (_ ++ _)%list as [|l labels]; intros [= <-].
  - by apply Forall_Forall2_diag, Forall_forall.
  - unfold getitem_columns. cbn [rows]. apply Forall2_fmap_l.
    apply Forall_Forall2_diag, Forall_forall. intros row _ c Hc.
    apply list_elem_of_bind in Hc as (label & Hc & _).
    by apply elem_of_pick in Hc.
Qed.

Lemma filter_table_columns_keeps_rows_witness :
  Forall2 (fun out row => forall c, c ∈ out -> c ∈ row)
    (rows (mkTable [Text "Strike"] [[Numeric "100"]]))
    (rows (mkTable [Text "Strike"; Text "Last"] [[Numeric "100"; Numeric "3"]])).
Proof.
  apply (filter_table_columns_keeps_rows
           (mkTable [Text "Strike"; Text "Last"] [[Numeric "100"; Numeric "3"]])).
  reflexivity.
Defined.


Lemma append_rows_narrow_row option_type row rows csv_data :
  length row <= 1 ->
  append_rows option_type (row :: rows) csv_data = Raised IndexError.
Proof.
  intros Hlen. simpl. unfold iloc.
  destruct row as [|v [|w row]]; simpl in *; [done | done | lia].
Qed.

Lemma append_rows_pairs option_type (strike_of oi_of : list cell -> cell)
    (f : list cell -> list cell) rows csv_data :
  (forall row, row ∈ rows -> f row = [strike_of row; oi_of row]) ->
  append_rows option_type (map f rows) csv_data =
    Returned
      (csv_data ++
       map (fun row => mkCsvRow option_type (strike_of row) (oi_of row)) rows)%list.
Proof.
  revert csv_data. induction rows as [|row rows IH]; intros csv_data Hf; simpl.
  - by rewrite app_nil_r.
  - rewrite (Hf row) by (by left). unfold iloc. simpl.
    rewrite IH; [by rewrite <- app_assoc | ].
    intros r Hr. apply Hf. by right.
Qed.

(** With distinct labels, both headers present and rows as wide as the
    header, projecting a table and writing its rows succeeds: each row
    yields one entry whose Strike is the cell under the "strike" column
    and whose OI is the cell under the "at close" column, wherever the two
    columns stand in the table. *)
Theorem written_rows_follow_labels
    (table : Table) (option_type : string) (csv_data : list CsvRow)
    (ls la : cell) (i j : nat) :
  NoDup (columns table) ->
  first_header "strike" (columns table) = Some ls ->
  first_header "at close" (columns table) = Some la ->
  columns table !! i = Some ls ->
  columns table !! j = Some la ->
  (forall row, row ∈ rows table -> i < length row /\ j < length row) ->
  (filtered ← filter_table_columns table;
   append_rows option_type (rows filtered) csv_data) =
  Returned
    (csv_data ++
     map (fun row => mkCsvRow option_type (default NaN (row !! i))
                       (default NaN (row !! j)))
       (rows table))%list.
Proof.
  intros Hnodup Hs Ha Hi Hj Hwide.
  rewrite (filter_table_columns_two_labels table ls la Hs Ha).
  cbn [mbind outcome_bind rows].
  apply append_rows_pairs. intros row Hrow.
  destruct (Hwide row Hrow) as [Hil Hjl].
  destruct (lookup_lt_is_Some_2 row i Hil) as [vi Hvi].
  destruct (lookup_lt_is_Some_2 row j Hjl) as [vj Hvj].
  rewrite (pick_lookup ls _ row i vi Hnodup Hi Hvi).
  rewrite (pick_lookup la _ row j vj Hnodup Hj Hvj).
  by rewrite Hvi, Hvj.
Qed.

Lemma written_rows_follow_labels_witness :
  (filtered ← filter_table_columns
                (mkTable [Text "At Close"; Text "Last"; Text "Strike"]
                   [[Numeric "5"; Numeric "2"; Numeric "100"]]);
   append_rows "Put" (rows filtered) []) =
  Returned
    ([] ++
     map (fun row => mkCsvRow "Put" (default NaN (row !! 2%nat))
                       (default NaN (row !! 0%nat)))
       (rows (mkTable [Text "At Close"; Text "Last"; Text "Strike"]
                [[Numeric "5"; Numeric "2"; Numeric "100"]])))%list.
Proof.
  apply (written_rows_follow_labels
           (mkTable [Text "At Close"; Text "Last"; Text "Strike"]
              [[Numeric "5"; Numeric "2"; Numeric "100"]])
           "Put" [] (Text "Strike") (Text "At Close") 2 0).
  - apply (bool_decide_unpack _). by vm_compute.
  - reflexivity.
  - reflexivity.
  - reflexivity.
  - reflexivity.
  - intros row Hrow. apply list_elem_of_singleton in Hrow as ->. simpl. lia.
Defined.

(** With distinct labels and only one of the two headers present, the
    projected table has a single column, and writing its rows fails with
    [IndexError] at the first row, where [row.iloc[1]] is read. *)
Theorem one_column_table_cannot_be_written
    (table : Table) (name other option_type : string) (csv_data : list CsvRow) :
  (name = "strike" /\ other = "at close") \/
  (name = "at close" /\ other = "strike") ->
  NoDup (columns table) ->
  header_present name (columns table) ->
  ~ header_present other (columns table) ->
  rows table <> [] ->
  (filtered ← filter_table_columns table;
   append_rows option_type (rows filtered) csv_data) = Raised IndexError.
Proof.
  intros Hnames Hnodup Hpresent Hother Hrows.
  apply first_header_present in Hpresent as [label Hlabel].
  apply first_header_None in Hother.
  rewrite (filter_table_columns_one_label table name other label) by done.
  cbn [mbind outcome_bind rows].
  destruct (rows table) as [|row others]; [done | ].
  cbn [map]. apply append_rows_narrow_row. by apply pick_length_NoDup.
Qed.

Lemma one_column_table_cannot_be_written_witness :
  (filtered ← filter_table_columns
                (mkTable [Text "Strike"; Text "Last"] [[Numeric "100"; Numeric "3"]]);
   append_rows "Call" (rows filtered) []) = Raised IndexError.
Proof.
  apply (one_column_table_cannot_be_written
           (mkTable [Text "Strike"; Text "Last"] [[Numeric "100"; Numeric "3"]])
           "strike" "at close" "Call" []).
  - by left.
  - apply (bool_decide_unpack _). by vm_compute.
  - exists (Text "Strike"). split; [by left | reflexivity].
  - by apply first_header_None.
  - discriminate.
Defined.



(** *** The number of segments *)

Lemma scan_boundaries_count rows idx table_boundaries table_start :
  table_start <= idx ->
  length (scan_boundaries rows idx table_boundaries table_start).1
  = length table_boundaries
    + length (filter (fun row => is_sentinel (row_text row) = true) rows) /\
  ((scan_boundaries rows idx table_boundaries table_start).2 < idx + length rows
   <-> (exists row, last rows = Some row /\ is_sentinel (row_text row) = false) \/
       (rows = [] /\ table_start < idx)).
Proof.
  revert idx table_boundaries table_start.
  induction rows as [|row rows IH]; intros idx tb ts Hle.
  - cbn [scan_boundaries fst snd]. rewrite filter_nil. cbn [length].
    split; [lia | ]. split.
    + intros Hlt. right. split; [done | lia].
    + intros [(row & Hrow & _) | [_ Hlt]]; [done | lia].
  - cbn [scan_boundaries]. fold (row_text row).
    destruct (is_sentinel (row_text row)) eqn:Hs.
    + rewrite filter_cons_True by done.
      destruct (IH (S idx) (tb ++ [(ts, idx)])%list (idx + 1)) as (Hlen & Hlast);
        [lia | ].
      rewrite Hlen, length_app. cbn [length]. split; [lia | ].
      replace (idx + S (length rows)) with (S idx + length rows) by lia.
      rewrite Hlast. destruct rows as [|row' rows].
      * split.
        -- intros [(r & Hr & _) | [_ Hlt]]; [done | lia].
        -- intros [(r & [= <-] & Hr) | [Hnil _]]; [congruence | done].
      * rewrite last_cons_cons. split.
        -- intros [Hrow | [Hnil _]]; [by left | done].
        -- intros [Hrow | [Hnil _]]; [by left | done].
    + rewrite filter_cons_False by (by rewrite Hs).
      destruct (IH (S idx) tb ts) as (Hlen & Hlast); [lia | ].
      rewrite Hlen. split; [done | ].
      replace (idx + length (row :: rows)) with (S idx + length rows)
        by (cbn [length]; lia).
      rewrite Hlast. destruct rows as [|row' rows].
      * split; [intros _; left; by exists row | intros _; right; split; [done | lia]].
      * rewrite last_cons_cons. split.
        -- intros [Hrow | [Hnil _]]; [by left | done].
        -- intros [Hrow | [Hnil _]]; [by left | done].
Qed.

(** [find_table_boundaries] returns one segment for each sentinel row,
    and one more when the last row of the grid is not a sentinel. *)
Theorem segment_count (df : Grid) :
  length (find_table_boundaries df)
  = length (filter (fun row => is_sentinel (row_text row) = true) df)
    + match last df with
      | Some row => if is_sentinel (row_text row) then 0 else 1
      | None => 0
      end.
Proof.
  unfold find_table_boundaries.
  destruct (scan_boundaries_count df 0 [] 0) as (Hlen & Hlast); [lia | ].
  destruct (scan_boundaries df 0 [] 0) as [tb ts]. cbn [fst snd] in *.
  cbn [length] in Hlen. rewrite Nat.add_0_l in Hlast.
  destruct (Nat.ltb_spec ts (length df)) as [Hlt | Hge].
  - apply Hlast in Hlt as [(row & -> & ->) | [_ Hlt]]; [ | lia].
    rewrite length_app. cbn [length]. lia.
  - destruct (last df) as [row|] eqn:Hrow; [ | lia].
    destruct (is_sentinel (row_text row)) eqn:Hs; [lia | ].
    assert (ts < length df) by (apply Hlast; left; by exists row). lia.
Qed.

End ParseProps.

(** ** Further properties of calculate_gex.py *)

Module GexProps.

Import Gex Spec GexFacts.

Local Open Scope R_scope.

(** *** Gamma and the exposure of one row *)

Lemma norm_pdf_le_peak x : norm_pdf x <= / sqrt (2 * PI).
Proof.
  unfold norm_pdf, Rdiv.
  rewrite <- (Rmult_1_l (/ sqrt (2 * PI))) at 2.
  apply Rmult_le_compat_r.
  - left. apply Rinv_0_lt_compat, sqrt_two_pi_pos.
  - rewrite <- exp_0.
    destruct (Req_dec_T x 0) as [-> | Hx].
    + right. f_equal. simpl. lra.
    + left. apply exp_increasing.
      pose proof (Rsqr_pos_lt x Hx) as Hsq. unfold Rsqr in Hsq. simpl. lra.
Qed.

Lemma calculate_gamma_nonneg S K r T sigma :
  0 < S -> 0 < sigma -> 0 <= calculate_gamma S K r T sigma.
Proof.
  intros HS Hsigma. destruct (Rle_dec T 0) as [HT | HT].
  - rewrite calculate_gamma_no_time by done. lra.
  - left. apply calculate_gamma_pos; lra.
Qed.

(** For a positive spot, strike and volatility, gamma is never negative,
    and with time left to expiry it is at most
    1 / (sqrt (2 pi) * S * sigma * sqrt T), whatever the positive
    strike. *)
Theorem calculate_gamma_bounds (S K r T sigma : R) :
  0 < S -> 0 < K -> 0 < sigma ->
  0 <= calculate_gamma S K r T sigma /\
  (0 < T ->
   calculate_gamma S K r T sigma <= / sqrt (2 * PI) / (S * sigma * sqrt T)).
Proof.
  intros HS HK Hsigma. split; [by apply calculate_gamma_nonneg | ].
  intros HT. rewrite calculate_gamma_with_time by done.
  apply Rmult_le_compat_r; [ | apply norm_pdf_le_peak].
  left. apply Rinv_0_lt_compat.
  repeat apply Rmult_lt_0_compat; try done. by apply sqrt_lt_R0.
Qed.

Lemma calculate_gamma_bounds_witness :
  0 <= calculate_gamma 100 100 0 1 0.2 /\
  (0 < 1 ->
   calculate_gamma 100 100 0 1 0.2 <= / sqrt (2 * PI) / (100 * 0.2 * sqrt 1)).
Proof. apply (calculate_gamma_bounds 100 100 0 1 0.2); lra. Defined.

(** At the money, with the rate at 0, d1 is half the volatility over the
    period and d2 is its opposite. *)
Theorem at_the_money_d1_d2 (S T sigma : R) :
  0 < S -> 0 < T -> 0 < sigma ->
  d1 S S 0 T sigma = sigma * sqrt T / 2 /\
  d2 (d1 S S 0 T sigma) sigma T = - d1 S S 0 T sigma.
Proof.
  intros HS HT Hsigma.
  assert (Hroot : 0 < sqrt T) by (by apply sqrt_lt_R0).
  assert (Hd1 : d1 S S 0 T sigma = sigma * sqrt T / 2).
  { unfold d1. replace (S / S) with 1 by (field; lra). rewrite ln_1.
    rewrite <- (sqrt_sqrt T) at 1 by lra.
    assert (Hden : sigma * sqrt T <> 0).
    { apply Rgt_not_eq. apply Rmult_lt_0_compat; lra. }
    apply (Rmult_eq_reg_r (sigma * sqrt T)); [ | done].
    unfold Rdiv. rewrite Rmult_assoc, Rinv_l by done. simpl. nra. }
  split; [done | ]. unfold d2. rewrite Hd1. lra.
Qed.

Lemma at_the_money_d1_d2_witness :
  d1 100 100 0 1 0.2 = 0.2 * sqrt 1 / 2 /\
  d2 (d1 100 100 0 1 0.2) 0.2 1 = - d1 100 100 0 1 0.2.
Proof. apply (at_the_money_d1_d2 100 1 0.2); lra. Defined.

Section Rows.

Variable float : string -> option R.

(** For a positive spot, strike and volatility, the shortcut taken when
    the open interest is 0 returns what the formula gives: whenever both
    cells parse, the exposure is gamma * OI * spot * (1/100) * mult,
    negated on a Put row, for every open interest. *)
Theorem calculate_signed_gex_closed_form
    (row : Row) (spot iv mult t strike oi : R) :
  0 < spot -> 0 < strike -> 0 < iv ->
  to_float float (Strike row) = Returned strike ->
  to_float float (OI row) = Returned oi ->
  calculate_signed_gex float row spot iv mult t =
    Returned
      (if decide (OptionType row = Text "Put")
       then - (calculate_gamma spot strike 0 t iv * oi * spot * (1 / 100) * mult)
       else calculate_gamma spot strike 0 t iv * oi * spot * (1 / 100) * mult).
Proof.
  intros Hspot HK Hiv Hstrike Hoi. destruct (Req_dec_T oi 0) as [-> | Hnz].
  - rewrite (calculate_signed_gex_zero_oi float row spot iv mult t strike) by done.
    destruct (decide _); f_equal; lra.
  - by apply calculate_signed_gex_nonzero_oi.
Qed.

(** For a positive spot, strike and volatility and a multiplier and open
    interest that are not negative, the exposure of a Put row is never
    positive and that of any other row is never negative, whatever the
    time to expiry. *)
Theorem calculate_signed_gex_sign
    (row : Row) (spot iv mult t strike oi : R) :
  0 < spot -> 0 < strike -> 0 < iv -> 0 <= mult -> 0 <= oi ->
  to_float float (Strike row) = Returned strike ->
  to_float float (OI row) = Returned oi ->
  exists gex,
    calculate_signed_gex float row spot iv mult t = Returned gex /\
    (OptionType row = Text "Put" -> gex <= 0) /\
    (OptionType row <> Text "Put" -> 0 <= gex).
Proof.
  intros Hspot HK Hiv Hmult Hoi Hstrike Hopen.
  destruct (Req_dec_T oi 0) as [-> | Hnz].
  - rewrite (calculate_signed_gex_zero_oi float row spot iv mult t strike) by done.
    exists 0. split; [done | split; intros _; lra].
  - rewrite (calculate_signed_gex_nonzero_oi float row spot iv mult t strike oi)
      by done.
    pose proof (calculate_gamma_nonneg spot strike 0 t iv Hspot Hiv) as Hgamma.
    assert (0 <= calculate_gamma spot strike 0 t iv * oi * spot * (1 / 100) * mult)
      as Hpos.
    { repeat apply Rmult_le_pos; lra. }
    eexists. split; [done | ].
    destruct (decide _) as [Hput | Hother]; split; intros ?; done || lra.
Qed.



(** The GEX column is computed row by row and in row order: the call
    returns a column exactly when every row has an exposure, and then the
    column holds these exposures position by position; one row that fails
    makes the whole call fail. *)
Theorem apply_gex_row_by_row (df : list Row) (spot iv mult t : R) :
  (forall gex,
     apply_gex float df spot iv mult t = Returned gex <->
     Forall2 (fun row g => calculate_signed_gex float row spot iv mult t = Returned g)
       df gex) /\
  (forall row e,
     row ∈ df -> calculate_signed_gex float row spot iv mult t = Raised e ->
     exists e', apply_gex float df spot iv mult t = Raised e').
Proof.
  split.
  - induction df as [|row df IH]; intros gex; simpl.
    + split; [intros [= <-]; constructor | by intros ->%Forall2_nil_inv_l].
    + destruct (calculate_signed_gex float row spot iv mult t) as [g | e] eqn:Hrow;
        cbn [mbind outcome_bind].
      * destruct (apply_gex float df spot iv mult t) as [gs | e] eqn:Hrest;
          cbn [mbind outcome_bind].
        -- split.
           ++ intros [= <-]. constructor; [done | by apply IH].
           ++ intros (g' & gs' & Hg & Hgs & ->)%Forall2_cons_inv_l.
              apply IH in Hgs. congruence.
        -- split; [done | ].
           intros (g' & gs' & Hg & Hgs & ->)%Forall2_cons_inv_l.
           apply IH in Hgs. congruence.
      * split; [done | ].
        intros (g' & gs' & Hg & Hgs & ->)%Forall2_cons_inv_l. congruence.
  - induction df as [|row0 df IH]; intros row e Hin Hrow; simpl.
    + by apply elem_of_nil in Hin.
    + destruct (calculate_signed_gex float row0 spot iv mult t) as [g | e0] eqn:Hrow0;
        cbn [mbind outcome_bind]; [ | by eexists].
      apply elem_of_cons in Hin as [-> | Hin]; [congruence | ].
      destruct (IH row e Hin Hrow) as [e' ->]. by eexists.
Qed.

End Rows.

Lemma calculate_signed_gex_closed_form_witness :
  calculate_signed_gex float_digits
    (mkRow (Text "Put") (Text "100") (Text "0")) 100 0.2 1 1 =
    Returned
      (if decide (OptionType (mkRow (Text "Put") (Text "100") (Text "0"))
                  = Text "Put")
       then - (calculate_gamma 100 100 0 1 0.2 * 0 * 100 * (1 / 100) * 1)
       else calculate_gamma 100 100 0 1 0.2 * 0 * 100 * (1 / 100) * 1).
Proof.
  apply (calculate_signed_gex_closed_form float_digits
           (mkRow (Text "Put") (Text "100") (Text "0")) 100 0.2 1 1 100 0);
    [lra | lra | lra | reflexivity | reflexivity].
Defined.

Lemma calculate_signed_gex_sign_witness :
  exists gex,
    calculate_signed_gex float_digits
      (mkRow (Text "Put") (Text "100") (Text "10")) 100 0.2 1 1 = Returned gex /\
    (OptionType (mkRow (Text "Put") (Text "100") (Text "10")) = Text "Put" ->
     gex <= 0) /\
    (OptionType (mkRow (Text "Put") (Text "100") (Text "10")) <> Text "Put" ->
     0 <= gex).
Proof.
  apply (calculate_signed_gex_sign float_digits
           (mkRow (Text "Put") (Text "100") (Text "10")) 100 0.2 1 1 100 10);
    [lra | lra | lra | lra | lra | reflexivity | reflexivity].
Defined.

Lemma apply_gex_row_by_row_witness :
  exists e',
    apply_gex float_digits
      [mkRow (Text "Call") (Text "100") (Text "10");
       mkRow (Text "Put") (Text "n/a") (Text "5")] 100 0.2 1 1 = Raised e'.
Proof.
  apply (proj2 (apply_gex_row_by_row float_digits
                  [mkRow (Text "Call") (Text "100") (Text "10");
                   mkRow (Text "Put") (Text "n/a") (Text "5")] 100 0.2 1 1)
           (mkRow (Text "Put") (Text "n/a") (Text "5"))
           (ValueError "could not convert string to float" [])).
  - right. by left.
  - reflexivity.
Defined.

(** *** The per-strike series *)

Lemma series_sum_app l k : series_sum (l ++ k) = series_sum l + series_sum k.
Proof.
  unfold series_sum. induction l as [|x l IH]; simpl; [lra | ]. rewrite IH. lra.
Qed.


Lemma sum_for_app k l l' : sum_for k (l ++ l') = sum_for k l + sum_for k l'.
Proof. unfold sum_for. by rewrite filter_app, fmap_app, series_sum_app. Qed.







Lemma fold_groups_keys k rows groups :
  k ∈ (foldl (fun groups row => add_to_group row.1 row.2 groups) groups rows).*1
  <-> k ∈ groups.*1 \/ k ∈ rows.*1.
Proof.
  revert groups. induction rows as [|[k0 v0] rows IH]; intros groups; simpl.
  - split; [by left | intros [? | Hnil]; [done | by apply elem_of_nil in Hnil]].
  - rewrite IH, add_to_group_keys, elem_of_cons. cbn [fst].
    destruct (decide (k0 ∈ groups.*1)) as [Hin | Hout].
    + split; [intros [? | ?]; auto | intros [? | [-> | ?]]; auto].
    + rewrite elem_of_app, list_elem_of_singleton.
      split; [intros [[? | ?] | ?]; auto | intros [? | [? | ?]]; auto].
Qed.


Lemma cumsum_ends_at_sum x values :
  last (x :: cumsum_from x values) = Some (series_sum (x :: values)).
Proof.
  revert x. induction values as [|y values IH]; intros x.
  - unfold series_sum. simpl. f_equal. lra.
  - cbn [cumsum_from]. rewrite last_cons_cons, IH.
    unfold series_sum. simpl. f_equal. lra.
Qed.

Lemma present_keys k rows :
  k ∈ (filter (fun row : cell * R => Parse.notna row.1 = true) rows).*1
  <-> k <> NaN /\ k ∈ rows.*1.
Proof.
  rewrite !list_elem_of_fmap. split.
  - intros ([k' v] & -> & Hin). apply list_elem_of_filter in Hin as [Hp Hin].
    split; [by destruct k' | by exists (k', v)].
  - intros (Hk & [k' v] & -> & Hin). exists (k', v). split; [done | ].
    apply list_elem_of_filter. split; [by destruct k' | done].
Qed.

Section Aggregation.

Context (strike_le : relation cell) `{!RelDecision strike_le}.

Lemma gex_by_strike_Permutation strike_gex :
  gex_by_strike strike_le strike_gex ≡ₚ
  foldl (fun groups row => add_to_group row.1 row.2 groups) []
    (filter (fun row => Parse.notna row.1 = true) strike_gex).
Proof.
  unfold gex_by_strike, sort_index, groupby_sum.
  by rewrite !merge_sort_Permutation.
Qed.


(** With at least one row and every strike present, the cumulative series
    ends at the sum of the GEX column. *)
Theorem cumulative_gex_ends_at_total (strike_gex : list (cell * R)) :
  strike_gex <> [] ->
  Forall (fun row => Parse.notna row.1 = true) strike_gex ->
  last (cumsum (gex_by_strike strike_le strike_gex).*2)
  = Some (series_sum strike_gex.*2).
Proof.
  intros Hne Hkeys.
  rewrite <- (gex_by_strike_total strike_le strike_gex Hkeys).
  assert (Hout : gex_by_strike strike_le strike_gex <> []).
  { destruct strike_gex as [|[k v] rows]; [done | ].
    apply Forall_cons in Hkeys as [Hk _]. cbn [fst] in Hk.
    assert (Hin : k ∈ (gex_by_strike strike_le ((k, v) :: rows)).*1).
    { rewrite gex_by_strike_Permutation, fold_groups_keys, present_keys.
      right. split; [by intros -> | by left]. }
    intros Hnil. rewrite Hnil in Hin. by apply elem_of_nil in Hin. }
  destruct (gex_by_strike strike_le strike_gex) as [|[k v] series]; [done | ].
  cbn [fmap list_fmap snd cumsum]. apply cumsum_ends_at_sum.
Qed.

End Aggregation.

Lemma cumulative_gex_ends_at_total_witness :
  last (cumsum
          (gex_by_strike numeral_le
             [(Numeric "105", 2); (Numeric "100", 1); (Numeric "100", -3)]).*2)
  = Some (series_sum [(Numeric "105", 2); (Numeric "100", 1); (Numeric "100", -3)].*2).
Proof.
  apply (cumulative_gex_ends_at_total numeral_le); [discriminate | repeat constructor].
Defined.


(** When every row is a Call or a Put, the Call total and the Put total
    that [main] prints add up to the total signed GEX. *)
Theorem call_and_put_gex_add_up (df : list Row) (gex : list R) :
  length gex = length df ->
  Forall (fun row => OptionType row = Text "Call" \/ OptionType row = Text "Put") df ->
  side_gex "Call" df gex + side_gex "Put" df gex = series_sum gex.
Proof.
  unfold side_gex. revert gex.
  induction df as [|row df IH]; intros [|g gex] Hlen Hsides; try done.
  - unfold series_sum. simpl. lra.
  - apply Forall_cons in Hsides as [Hside Hsides].
    specialize (IH gex ltac:(simpl in Hlen; lia) Hsides).
    cbn [zip zip_with].
    destruct Hside as [Hc | Hp].
    + rewrite filter_cons_True by done.
      rewrite (filter_cons_False _ (row, g)) by (cbn [fst]; congruence).
      cbn [fmap list_fmap snd]. unfold series_sum in *. simpl in *. lra.
    + rewrite filter_cons_False by (cbn [fst]; congruence).
      rewrite (filter_cons_True _ (row, g)) by done.
      cbn [fmap list_fmap snd]. unfold series_sum in *. simpl in *. lra.
Qed.

Lemma call_and_put_gex_add_up_witness :
  side_gex "Call"
    [mkRow (Text "Call") (Text "100") (Text "10");
     mkRow (Text "Put") (Text "100") (Text "5")] [2; -1] +
  side_gex "Put"
    [mkRow (Text "Call") (Text "100") (Text "10");
     mkRow (Text "Put") (Text "100") (Text "5")] [2; -1]
  = series_sum [2; -1].
Proof.
  apply call_and_put_gex_add_up; [reflexivity | ].
  repeat constructor; by (left + right).
Defined.

(** *** The order of the series *)

Lemma string_leb_trans s t u :
  String.leb s t = true -> String.leb t u = true -> String.leb s u = true.
Proof.
  unfold String.leb. revert t u.
  induction s as [|a s IH]; intros [|b t] [|c u]; simpl; try done.
  unfold Ascii.compare.
  destruct (N.compare_spec (N_of_ascii a) (N_of_ascii b)) as [Hab | Hab | Hab];
    destruct (N.compare_spec (N_of_ascii b) (N_of_ascii c)) as [Hbc | Hbc | Hbc];
    destruct (N.compare_spec (N_of_ascii a) (N_of_ascii c)) as [Hac | Hac | Hac];
    try done; try lia.
  apply IH.
Qed.

#[global] Instance strike_column_le_transitive float :
  Transitive (strike_column_le float).
Proof.
  intros a b c. destruct a, b, c; simpl; try done.
  - apply string_leb_trans.
  - apply Rle_trans.
Qed.

#[global] Instance strike_column_le_total float : Total (strike_column_le float).
Proof.
  intros a b. destruct a as [|s|x], b as [|t|y]; simpl; auto.
  - apply String.leb_total.
  - destruct (Rle_dec (default 0 (float x)) (default 0 (float y)));
      [by left | right; lra].
Qed.

Lemma StronglySorted_on {A} (R1 R2 : relation A) (l : list A) :
  (forall a b, a ∈ l -> b ∈ l -> R1 a b -> R2 a b) ->
  StronglySorted R1 l -> StronglySorted R2 l.
Proof.
  intros Himpl Hsorted.
  induction Hsorted as [|a l Hl IH Hall]; constructor.
  - apply IH. intros x y Hx Hy. apply Himpl; by right.
  - apply Forall_forall. intros b Hb.
    apply Himpl; [by left | by right | ].
    by apply (proj1 (Forall_forall _ _) Hall).
Qed.

(** On a Strike column of numbers, the per-strike series comes out in
    ascending order of strike value with every strike once, and the
    cumulative series is its running sum: as long as the series, equal to
    the net value at position 0, and at every later position the previous
    cumulative value plus the net value there. *)
Theorem numeric_strikes_ascend
    (float : string -> option R) (strike_gex : list (cell * R)) :
  Forall (fun row => numeric_strike float row.1) strike_gex ->
  Forall (numeric_strike float)
    (gex_by_strike (strike_column_le float) strike_gex).*1 /\
  StronglySorted (fun a b => strike_value float a <= strike_value float b)
    (gex_by_strike (strike_column_le float) strike_gex).*1 /\
  NoDup (gex_by_strike (strike_column_le float) strike_gex).*1 /\
  length (cumsum (gex_by_strike (strike_column_le float) strike_gex).*2)
  = length (gex_by_strike (strike_column_le float) strike_gex).*2 /\
  cumsum (gex_by_strike (strike_column_le float) strike_gex).*2 !! 0%nat
  = (gex_by_strike (strike_column_le float) strike_gex).*2 !! 0%nat /\
  (forall i previous net,
     cumsum (gex_by_strike (strike_column_le float) strike_gex).*2 !! i
     = Some previous ->
     (gex_by_strike (strike_column_le float) strike_gex).*2 !! (S i) = Some net ->
     cumsum (gex_by_strike (strike_column_le float) strike_gex).*2 !! (S i)
     = Some (previous + net)).
Proof.
  intros Hnumeric.
  assert (Hkeys : Forall (numeric_strike float)
            (gex_by_strike (strike_column_le float) strike_gex).*1).
  { apply Forall_forall. intros k Hk.
    rewrite gex_by_strike_Permutation, fold_groups_keys, present_keys in Hk.
    destruct Hk as [Hnil | [_ Hk]]; [by apply elem_of_nil in Hnil | ].
    apply list_elem_of_fmap in Hk as (row & -> & Hrow).
    by apply (proj1 (Forall_forall _ _) Hnumeric). }
  split; [done | split; [ | split; [apply gex_by_strike_NoDup | ]]].
  - apply (StronglySorted_on (strike_column_le float)).
    + intros a b Ha Hb.
      destruct (proj1 (Forall_forall _ _) Hkeys a Ha) as (ra & xa & -> & Hxa).
      destruct (proj1 (Forall_forall _ _) Hkeys b Hb) as (rb & xb & -> & Hxb).
      done.
    + apply gex_by_strike_sorted; apply _.
  - destruct ((gex_by_strike (strike_column_le float) strike_gex).*2)
      as [|x values]; simpl.
    + split; [done | split; [done | ]].
      intros i previous net Hp. by rewrite lookup_nil in Hp.
    + rewrite cumsum_from_length. split; [done | split; [done | ]].
      intros i previous net Hp Hnet. by apply cumsum_from_step.
Qed.

Lemma numeric_strikes_ascend_witness :
  StronglySorted
    (fun a b => strike_value float_digits a <= strike_value float_digits b)
    (gex_by_strike (strike_column_le float_digits)
       [(Numeric "10000", 2); (Numeric "9000", 1); (Numeric "10000", -3)]).*1.
Proof.
  apply (numeric_strikes_ascend float_digits
           [(Numeric "10000", 2); (Numeric "9000", 1); (Numeric "10000", -3)]).
  repeat constructor; by eexists _, _.
Defined.

End GexProps.
